(** * wyoming-porcupine1: the connection handler and the detector state

    A shallow embedding of [wyoming_porcupine1/__main__.py]: the process-wide
    [State] with its [get_porcupine], and [Porcupine1EventHandler] with
    [handle_event], [disconnect] and [_load_keyword].

    The two external collaborators, the [pvporcupine] engine and wyoming's
    [AudioChunkConverter], are interfaces (type classes); everything else is
    translated from the Python text.  Python exceptions are the [Raise]
    outcome of a state-and-exception monad whose state survives a raise, as
    the attributes of a Python object do. *)

From Stdlib Require Import ZArith QArith Strings.Byte Strings.Ascii.
From stdpp Require Import gmap strings list fin_maps.

Local Open Scope Z_scope.
Local Open Scope nat_scope.
Local Open Scope string_scope.
Local Open Scope list_scope.

(** ** Python values *)

(** [bytes] objects. *)
Abbreviation bytes := (list byte).

(** The exceptions the modelled code can raise. *)
Inductive exn : Type :=
| ValueError (msg : string)
| IndexError
| KeyError (key : string)
| AssertionError
| AttributeError
| StructError
| AudioopError (msg : string)
| EngineError (msg : string).

(** [s * n] on a Python string. *)
Fixpoint str_repeat (s : string) (n : nat) : string :=
  match n with
  | 0 => ""
  | S n' => s +:+ str_repeat s n'
  end.

(** A 16-bit two's complement sample from its two bytes, low byte first
    (format character [h] in native order on the little-endian hosts the
    service runs on). *)
Definition int16_of_bytes (lo hi : byte) : Z :=
  let u := Z.lor (Z.of_N (Byte.to_N lo)) (Z.shiftl (Z.of_N (Byte.to_N hi)) 8) in
  if Z.testbit u 15 then (u - 65536)%Z else u.

(** [struct.unpack_from(fmt, buffer)] for the formats the handler builds:
    every [h] consumes two bytes and yields one sample; bytes left over
    after the format is exhausted are ignored; a buffer that is too short,
    or any other format character, is a [struct.error]. *)
Fixpoint struct_unpack_from (fmt : string) (buffer : bytes) : option (list Z) :=
  match fmt with
  | EmptyString => Some []
  | String c fmt' =>
      if Ascii.eqb c "h"%char then
        match buffer with
        | lo :: hi :: rest => cons (int16_of_bytes lo hi) <$> struct_unpack_from fmt' rest
        | _ => None
        end
      else None
  end.

(** The inverse direction, [struct.pack("h", v)], used only to state that
    the frames handed to the engine carry all the bytes of the stream. *)
Definition byte_of_Z (z : Z) : byte :=
  default x00 (Byte.of_N (Z.to_N (z mod 256))).

Definition bytes_of_int16 (v : Z) : bytes :=
  [byte_of_Z v; byte_of_Z (Z.shiftr v 8)].

Definition struct_pack_h (frame : list Z) : bytes :=
  flat_map bytes_of_int16 frame.

(** ** The external collaborators *)

(** The [pvporcupine] module.  [pv_create model_path keyword_paths] is
    [pvporcupine.create]: it raises, or yields the frame length of the new
    engine and its initial internal state.  [pv_process] is
    [Porcupine.process]: it advances the internal state and returns the
    index of the keyword that fired, or a negative number. *)
Class PvPorcupine := {
  pv_internal : Type;
  pv_create : string -> list string -> exn + (nat * pv_internal);
  pv_process : pv_internal -> list Z -> pv_internal * Z;
}.

(** wyoming's audio events and [AudioChunkConverter]. *)
Module Event.
Record t := mk {
  type : string;
  names : option (list string);
  rate : Z;
  width : Z;
  channels : Z;
  timestamp : option Z;
  payload : bytes;
}.
End Event.

Module Describe.
Definition is_type (event_type : string) : bool := bool_decide (event_type = "describe").
End Describe.

Module Detect.
Record t := mk { names : option (list string) }.
Definition is_type (event_type : string) : bool := bool_decide (event_type = "detect").
Definition from_event (event : Event.t) : t := {| names := Event.names event |}.
End Detect.

Module AudioStart.
Definition is_type (event_type : string) : bool := bool_decide (event_type = "audio-start").
End AudioStart.

Module AudioStop.
Definition is_type (event_type : string) : bool := bool_decide (event_type = "audio-stop").
End AudioStop.

Module AudioChunk.
Record t := mk {
  rate : Z;
  width : Z;
  channels : Z;
  audio : bytes;
  timestamp : option Z;
}.
Definition is_type (event_type : string) : bool := bool_decide (event_type = "audio-chunk").
Definition from_event (event : Event.t) : t :=
  {| rate := Event.rate event; width := Event.width event;
     channels := Event.channels event; audio := Event.payload event;
     timestamp := Event.timestamp event |}.
End AudioChunk.

(** [AudioChunkConverter]: [convert] may keep resampling state between
    chunks, so it threads the converter; on a chunk it cannot convert
    (a sample width [audioop] refuses, say) it raises. *)
Class AudioChunkConverter := {
  converter_t : Type;
  converter_new : Z -> Z -> Z -> converter_t;
  converter_convert : converter_t -> AudioChunk.t -> exn + (converter_t * AudioChunk.t);
}.

(** Events written back to the client. *)
Record WakeModel := mkWakeModel {
  wm_name : string;
  wm_description : string;
  wm_phrase : string;
  wm_languages : list string;
}.

Inductive OutEvent : Type :=
| Info (models : list WakeModel)
| Detection (name : string) (timestamp : option Z)
| NotDetected.

(** Truthiness of an optional list ([if detect.names:]). *)
Definition truthy {A} (l : option (list A)) : bool :=
  match l with
  | Some (_ :: _) => true
  | _ => false
  end.

(** ** Data classes *)

Definition DEFAULT_KEYWORD : string := "porcupine".

Record Keyword := mkKeyword {
  language : string;
  name : string;
  model_path : string;
}.

(** A Python [dict] with string keys whose iteration order matters: an
    association list in insertion order. *)
Abbreviation dict V := (list (string * V)).

Definition dict_keys {V} (d : dict V) : list string := d.*1.

Fixpoint dict_get {V} (d : dict V) (k : string) : option V :=
  match d with
  | [] => None
  | (k', v) :: d' => if decide (k' = k) then Some v else dict_get d' k
  end.

Section Service.
Context {PV : PvPorcupine} {CV : AudioChunkConverter}.

(** An engine object.  [handle] is its identity: the number of engines
    the process had constructed before it. *)
Record Porcupine := mkPorcupine {
  handle : nat;
  frame_length : nat;
  internal : pv_internal;
}.

Record Detector := mkDetector {
  porcupine : Porcupine;
  sensitivity : Q;
}.

(** [State]: the registry tables and the detector cache.  [keywords] is
    optional because [get_porcupine] tests it against [None]. *)
Record State := mkState {
  pv_lib_paths : gmap string string;
  keywords : option (dict Keyword);
  detector_cache : gmap string (list Detector);
}.

(** [State.__init__]. *)
Definition State_init (pv_lib_paths : gmap string string)
    (keywords : option (dict Keyword)) : State :=
  {| pv_lib_paths := pv_lib_paths; keywords := keywords; detector_cache := ∅ |}.

(** [Porcupine1EventHandler]; [self.state] is the shared object of the
    environment below, [cli_sensitivity] is [self.cli_args.sensitivity],
    [wyoming_info_event] holds the models of the Info event. *)
Record Porcupine1EventHandler := mkHandler {
  cli_sensitivity : Q;
  wyoming_info_event : list WakeModel;
  client_id : string;
  converter : converter_t;
  audio_buffer : bytes;
  detected : bool;
  detector : option Detector;
  chunk_format : string;
  bytes_per_chunk : nat;
}.

(** [Porcupine1EventHandler.__init__]. *)
Definition Handler_init (wyoming_info_event : list WakeModel) (cli_sensitivity : Q)
    (client_id : string) : Porcupine1EventHandler :=
  {| cli_sensitivity := cli_sensitivity;
     wyoming_info_event := wyoming_info_event;
     client_id := client_id;
     converter := converter_new 16000 2 1;
     audio_buffer := [];
     detected := false;
     detector := None;
     chunk_format := "";
     bytes_per_chunk := 0 |}.

(** ** The environment of a handler call

    [shared] is the [State] object every handler points to; [instances]
    counts the engines constructed so far; [written] are the events sent
    with [write_event], oldest first; [processed] are the frames passed to
    [Porcupine.process], oldest first. *)
Record Env := mkEnv {
  self : Porcupine1EventHandler;
  shared : State;
  instances : nat;
  written : list OutEvent;
  processed : list (list Z);
}.

Inductive Res (A : Type) : Type :=
| Ret (a : A)
| Raise (e : exn)
| Hang.
Global Arguments Ret {A} a.
Global Arguments Raise {A} e.
Global Arguments Hang {A}.

Definition M (A : Type) : Type := Env -> Env * Res A.

Definition ret {A} (a : A) : M A := fun env => (env, Ret a).
Definition raise {A} (e : exn) : M A := fun env => (env, Raise e).
Definition hang {A} : M A := fun env => (env, Hang).
Definition bind {A B} (m : M A) (k : A -> M B) : M B :=
  fun env =>
    match m env with
    | (env', Ret a) => k a env'
    | (env', Raise e) => (env', Raise e)
    | (env', Hang) => (env', Hang)
    end.

#[global] Instance M_ret : MRet M := @ret.
#[global] Instance M_bind : MBind M := fun A B k m => bind m k.

Definition get_self : M Porcupine1EventHandler := fun env => (env, Ret (self env)).
Definition get_shared : M State := fun env => (env, Ret (shared env)).
Definition set_self (h : Porcupine1EventHandler) : M unit :=
  fun env => (mkEnv h (shared env) (instances env) (written env) (processed env), Ret tt).

(** [await self.write_event(e)]. *)
Definition write_event (e : OutEvent) : M unit :=
  fun env => (mkEnv (self env) (shared env) (instances env) (written env ++ [e])
                (processed env), Ret tt).

(** Attribute assignments on [self]. *)
Definition with_audio_buffer (b : bytes) (h : Porcupine1EventHandler) :=
  mkHandler (cli_sensitivity h) (wyoming_info_event h) (client_id h) (converter h)
    b (detected h) (detector h) (chunk_format h) (bytes_per_chunk h).
Definition with_detected (d : bool) (h : Porcupine1EventHandler) :=
  mkHandler (cli_sensitivity h) (wyoming_info_event h) (client_id h) (converter h)
    (audio_buffer h) d (detector h) (chunk_format h) (bytes_per_chunk h).
Definition with_detector (d : option Detector) (h : Porcupine1EventHandler) :=
  mkHandler (cli_sensitivity h) (wyoming_info_event h) (client_id h) (converter h)
    (audio_buffer h) (detected h) d (chunk_format h) (bytes_per_chunk h).
Definition with_chunk_format (f : string) (h : Porcupine1EventHandler) :=
  mkHandler (cli_sensitivity h) (wyoming_info_event h) (client_id h) (converter h)
    (audio_buffer h) (detected h) (detector h) f (bytes_per_chunk h).
Definition with_bytes_per_chunk (n : nat) (h : Porcupine1EventHandler) :=
  mkHandler (cli_sensitivity h) (wyoming_info_event h) (client_id h) (converter h)
    (audio_buffer h) (detected h) (detector h) (chunk_format h) n.
Definition with_converter (c : converter_t) (h : Porcupine1EventHandler) :=
  mkHandler (cli_sensitivity h) (wyoming_info_event h) (client_id h) c
    (audio_buffer h) (detected h) (detector h) (chunk_format h) (bytes_per_chunk h).
Definition with_internal (i : pv_internal) (d : Detector) : Detector :=
  mkDetector (mkPorcupine (handle (porcupine d)) (frame_length (porcupine d)) i)
    (sensitivity d).

Definition modify_self (f : Porcupine1EventHandler -> Porcupine1EventHandler) : M unit :=
  h ← get_self; set_self (f h).

(** ** [State.get_porcupine] *)

(** The [for keyword in self.keywords] loop: the model paths of the
    keywords whose language is ["en"], in dictionary order. *)
Fixpoint en_keyword_paths (kws : dict Keyword) (keys : list string)
    (keywords_paths : list string) : exn + list string :=
  match keys with
  | [] => inr keywords_paths
  | keyword :: keys' =>
      match dict_get kws keyword with
      | None => inl (KeyError keyword)
      | Some kw =>
          if decide (language kw = "en")
          then en_keyword_paths kws keys' (keywords_paths ++ [model_path kw])
          else en_keyword_paths kws keys' keywords_paths
      end
  end.

(** [pvporcupine.create(...)]: a new engine object, numbered by the
    count of engines built before it. *)
Definition pvporcupine_create (model_path : string) (keyword_paths : list string)
    : M Porcupine :=
  fun env =>
    match pv_create model_path keyword_paths with
    | inl e => (env, Raise e)
    | inr (fl, st) =>
        (mkEnv (self env) (shared env) (S (instances env)) (written env) (processed env),
         Ret (mkPorcupine (instances env) fl st))
    end.

Definition get_porcupine (sensitivity : Q) : M Detector :=
  st ← get_shared;
  match keywords st with
  | None => raise (ValueError "No keywords")
  | Some kws =>
      match en_keyword_paths kws (dict_keys kws) [] with
      | inl e => raise e
      | inr keywords_paths =>
          (* the debug line evaluates keywords_paths[0] *)
          match keywords_paths with
          | [] => raise IndexError
          | _ :: _ =>
              match pv_lib_paths st !! "en" with
              | None => raise (KeyError "en")
              | Some lib =>
                  p ← pvporcupine_create lib keywords_paths;
                  ret (mkDetector p sensitivity)
              end
          end
      end
  end.

(** ** [Porcupine1EventHandler] methods *)

Definition _load_keyword : M unit :=
  h ← get_self;
  d ← get_porcupine (cli_sensitivity h);
  modify_self (with_detector (Some d));;
  modify_self (with_chunk_format (str_repeat "h" (frame_length (porcupine d))));;
  modify_self (with_bytes_per_chunk (frame_length (porcupine d) * 2)).

(** [self.detector.porcupine.process(unpacked_chunk)]: the engine object
    is mutated in place and the call is recorded. *)
Definition detector_process (unpacked_chunk : list Z) : M Z :=
  fun env =>
    match detector (self env) with
    | None => (env, Raise AttributeError)
    | Some d =>
        let '(i', keyword_index) := pv_process (internal (porcupine d)) unpacked_chunk in
        (mkEnv (with_detector (Some (with_internal i' d)) (self env)) (shared env)
           (instances env) (written env) (processed env ++ [unpacked_chunk]),
         Ret keyword_index)
    end.

(** One pass through the body of the [while] loop. *)
Definition drain_body (chunk : AudioChunk.t) : M unit :=
  h ← get_self;
  match struct_unpack_from (chunk_format h)
          (take (bytes_per_chunk h) (audio_buffer h)) with
  | None => raise StructError
  | Some unpacked_chunk =>
      keyword_index ← detector_process unpacked_chunk;
      (if (0 <=? keyword_index)%Z
       then write_event (Detection "alexa" (AudioChunk.timestamp chunk))
       else ret tt);;
      modify_self (fun h => with_audio_buffer (drop (bytes_per_chunk h) (audio_buffer h)) h)
  end.

(** [while len(self.audio_buffer) >= self.bytes_per_chunk: ...].  The
    loop is unrolled at most [fuel] times; running out of fuel stands
    for a loop that does not end. *)
Fixpoint drain (fuel : nat) (chunk : AudioChunk.t) : M unit :=
  h ← get_self;
  if decide (bytes_per_chunk h <= length (audio_buffer h)) then
    match fuel with
    | 0 => hang
    | S fuel' => drain_body chunk;; drain fuel' chunk
    end
  else ret tt.

(** [handle_event]: every branch ends in the value the method returns
    on that path. *)
Definition handle_event (event : Event.t) : M bool :=
  if Describe.is_type (Event.type event) then
    h ← get_self;
    write_event (Info (wyoming_info_event h));;
    ret true
  else if Detect.is_type (Event.type event) then
    let detect := Detect.from_event event in
    (if truthy (Detect.names detect) then _load_keyword else ret tt);;
    ret true
  else if AudioStart.is_type (Event.type event) then
    modify_self (with_detected false);;
    ret true
  else if AudioChunk.is_type (Event.type event) then
    h ← get_self;
    (if detector h is None then _load_keyword else ret tt);;
    h ← get_self;
    (if detector h is None then raise AssertionError else ret tt);;
    let chunk := AudioChunk.from_event event in
    match converter_convert (converter h) chunk with
    | inl e => raise e
    | inr (conv', chunk) =>
        modify_self (with_converter conv');;
        modify_self (fun h => with_audio_buffer (audio_buffer h ++ AudioChunk.audio chunk) h);;
        h ← get_self;
        drain (S (length (audio_buffer h))) chunk;;
        ret true
    end
  else if AudioStop.is_type (Event.type event) then
    h ← get_self;
    (if negb (detected h) then write_event NotDetected else ret tt);;
    ret false
  else
    ret true.

(** [disconnect]: the append to the cache is commented out in the
    source; what is left drops the handler's reference. *)
Definition disconnect : M unit :=
  h ← get_self;
  if detector h is None then ret tt
  else modify_self (with_detector None).

(** wyoming's [AsyncEventHandler.run], the caller of [handle_event]:
    events are handled in arrival order until the stream ends or
    [handle_event] returns [False]; [disconnect] runs on every exit. *)
Fixpoint run_loop (events : list Event.t) : M unit :=
  match events with
  | [] => ret tt
  | event :: events' =>
      bind (handle_event event)
        (fun keep_open : bool => if keep_open then run_loop events' else ret tt)
  end.

Definition run (events : list Event.t) : M unit :=
  fun env =>
    let '(env1, r) := run_loop events env in
    match disconnect env1 with
    | (env2, Ret _) => (env2, r)
    | (env2, Raise e) => (env2, Raise e)
    | (env2, Hang) => (env2, Hang)
    end.

(** ** The server: one [State], many handlers

    [AsyncServer.run] builds one handler per connection around the same
    [State] object.  A step connects a client, lets one connected handler
    handle one event, or tears one connection down. *)
Record Server := mkServer {
  srv_state : State;
  srv_instances : nat;
  srv_handlers : list Porcupine1EventHandler;
}.

Definition srv_env (s : Server) (h : Porcupine1EventHandler) : Env :=
  mkEnv h (srv_state s) (srv_instances s) [] [].

Inductive srv_step : Server -> Server -> Prop :=
| srv_connect s info sens id :
    srv_step s
      (mkServer (srv_state s) (srv_instances s)
         (srv_handlers s ++ [Handler_init info sens id]))
| srv_handle s i h event env' r :
    srv_handlers s !! i = Some h ->
    handle_event event (srv_env s h) = (env', r) ->
    srv_step s
      (mkServer (shared env') (instances env') (<[i := self env']> (srv_handlers s)))
| srv_disconnect s i h env' r :
    srv_handlers s !! i = Some h ->
    disconnect (srv_env s h) = (env', r) ->
    srv_step s
      (mkServer (shared env') (instances env') (delete i (srv_handlers s))).

Definition srv_init (pv_lib_paths : gmap string string)
    (keywords : option (dict Keyword)) : Server :=
  mkServer (State_init pv_lib_paths keywords) 0 [].

(** ** Specification vocabulary *)

(** The samples of a byte string, two bytes each. *)
Fixpoint samples (b : bytes) : list Z :=
  match b with
  | lo :: hi :: rest => int16_of_bytes lo hi :: samples rest
  | _ => []
  end.

(** The first [k] blocks of [n] bytes of a byte string. *)
Fixpoint frames_of (k n : nat) (b : bytes) : list bytes :=
  match k with
  | 0 => []
  | S k' => take n b :: frames_of k' n (drop n b)
  end.

(** The converted payloads of a run of audio chunk events, the
    converter threaded through them, up to the first chunk the converter
    refuses; and how the conversions end: all done, or the exception of
    that chunk. *)
Fixpoint normalized (conv : converter_t) (events : list Event.t) : list bytes :=
  match events with
  | [] => []
  | event :: events' =>
      match converter_convert conv (AudioChunk.from_event event) with
      | inl _ => []
      | inr (conv', chunk) => AudioChunk.audio chunk :: normalized conv' events'
      end
  end.

Fixpoint conversion_outcome (conv : converter_t) (events : list Event.t) : Res unit :=
  match events with
  | [] => Ret tt
  | event :: events' =>
      match converter_convert conv (AudioChunk.from_event event) with
      | inl e => Raise e
      | inr (conv', _) => conversion_outcome conv' events'
      end
  end.

(** The arguments [get_porcupine] hands to [pvporcupine.create], or the
    exception it raises before getting there. *)
Definition porcupine_args (st : State) : exn + (string * list string) :=
  match keywords st with
  | None => inl (ValueError "No keywords")
  | Some kws =>
      match en_keyword_paths kws (dict_keys kws) [] with
      | inl e => inl e
      | inr [] => inl IndexError
      | inr paths =>
          match pv_lib_paths st !! "en" with
          | None => inl (KeyError "en")
          | Some lib => inr (lib, paths)
          end
      end
  end.

(** The keyword behind an engine index: the engine numbers keywords by
    their position in [keyword_paths]. *)
Definition en_keywords (kws : dict Keyword) : list Keyword :=
  filter (fun kw => language kw = "en") kws.*2.

Definition keyword_of_index (st : State) (keyword_index : Z) : option string :=
  kws ← keywords st;
  if (keyword_index <? 0)%Z then None
  else name <$> en_keywords kws !! Z.to_nat keyword_index.

(** A handler whose detector is bound the way [_load_keyword] binds it. *)
Definition armed (h : Porcupine1EventHandler) (d : Detector) : Prop :=
  detector h = Some d /\
  chunk_format h = str_repeat "h" (frame_length (porcupine d)) /\
  bytes_per_chunk h = frame_length (porcupine d) * 2 /\
  0 < frame_length (porcupine d).

(** What [_load_keyword] leaves in the handler once [d] is acquired. *)
Definition bound_to (d : Detector) (h : Porcupine1EventHandler) : Porcupine1EventHandler :=
  mkHandler (cli_sensitivity h) (wyoming_info_event h) (client_id h) (converter h)
    (audio_buffer h) (detected h) (Some d)
    (str_repeat "h" (frame_length (porcupine d))) (frame_length (porcupine d) * 2).

(** An engine fed a list of frames: its last internal state and the
    index it returned for each frame. *)
Fixpoint score (i : pv_internal) (frames : list (list Z)) : pv_internal * list Z :=
  match frames with
  | [] => (i, [])
  | f :: fs =>
      let '(i', keyword_index) := pv_process i f in
      let '(i'', rest) := score i' fs in
      (i'', keyword_index :: rest)
  end.

(** The events the loop writes for a list of returned indices. *)
Definition detections (ts : option Z) (indices : list Z) : list OutEvent :=
  flat_map (fun keyword_index : Z =>
              if (0 <=? keyword_index)%Z then [Detection "alexa" ts] else []) indices.

(** The environment after the loop has consumed [k] frames. *)
Definition drained (k : nat) (ts : option Z) (d : Detector) (env : Env) : Env :=
  let n := bytes_per_chunk (self env) in
  let fs := samples <$> frames_of k n (audio_buffer (self env)) in
  let sc := score (internal (porcupine d)) fs in
  mkEnv
    (with_detector (Some (with_internal sc.1 d))
       (with_audio_buffer (drop (k * n) (audio_buffer (self env))) (self env)))
    (shared env) (instances env)
    (written env ++ detections ts sc.2) (processed env ++ fs).

(** The environment after an armed handler has handled one audio chunk
    event that the converter turned into [chunk], leaving the converter
    as [conv']: the converted payload appended, then every full frame
    consumed. *)
Definition chunk_step (conv' : converter_t) (chunk : AudioChunk.t) (d : Detector)
    (env : Env) : Env :=
  let env1 :=
    mkEnv
      (with_audio_buffer (audio_buffer (self env) ++ AudioChunk.audio chunk)
         (with_converter conv' (self env)))
      (shared env) (instances env) (written env) (processed env) in
  drained (length (audio_buffer (self env1)) / bytes_per_chunk (self env1))
    (AudioChunk.timestamp chunk) d env1.

(** The engine asks for frames of at least one sample. *)
Definition frame_length_positive : Prop :=
  forall lib paths fl st, pv_create lib paths = inr (fl, st) -> 0 < fl.

(** The environments a connection passes through: from [env0], after
    any number of events that [handle_event] answered with [True]. *)
Inductive reachable (env0 : Env) : Env -> Prop :=
| reach_init : reachable env0 env0
| reach_step env event env' :
    reachable env0 env ->
    handle_event event env = (env', Ret true) ->
    reachable env0 env'.

(** What holds of a handler between events: unbound, it has buffered
    nothing; bound, it is armed for the frame length the engine gives
    the registry's keywords, and holds less than a frame. *)
Definition session_inv (env : Env) : Prop :=
  match detector (self env) with
  | None => audio_buffer (self env) = []
  | Some d =>
      armed (self env) d /\
      length (audio_buffer (self env)) < bytes_per_chunk (self env) /\
      exists lib paths st,
        porcupine_args (shared env) = inr (lib, paths) /\
        pv_create lib paths = inr (frame_length (porcupine d), st)
  end.

(** How any method call may move the environment: the shared state
    stays as it is; engines are only added; a detector bound afterwards
    is the one bound before or an engine built during the call; the
    detected flag is never raised; and what is written is appended, every
    Detection among it naming ["alexa"]. *)
Definition evolves (env env' : Env) : Prop :=
  shared env' = shared env /\
  instances env <= instances env' /\
  (forall d', detector (self env') = Some d' ->
     (exists d, detector (self env) = Some d /\
                handle (porcupine d') = handle (porcupine d)) \/
     instances env <= handle (porcupine d') < instances env') /\
  (detected (self env') = true -> detected (self env) = true) /\
  (exists new, written env' = written env ++ new /\
     Forall (fun e => forall nm ts, e = Detection nm ts -> nm = "alexa") new).

Definition respects {A} (m : M A) : Prop :=
  forall env env' r, m env = (env', r) -> evolves env env'.

(** Replacing the cache of the shared state. *)
Definition with_cache (c : gmap string (list Detector)) (env : Env) : Env :=
  mkEnv (self env)
    (mkState (pv_lib_paths (shared env)) (keywords (shared env)) c)
    (instances env) (written env) (processed env).

(** A computation that neither reads nor writes the cache: run with
    another cache, it does the same and leaves that cache in place. *)
Definition cache_blind {A} (m : M A) : Prop :=
  forall c env, m (with_cache c env) = (with_cache c (m env).1, (m env).2).

(** The server between steps: the cache is empty, every bound detector
    is an engine built so far, and no engine is bound to two handlers. *)
Definition srv_inv (s : Server) : Prop :=
  detector_cache (srv_state s) = ∅ /\
  (forall i h d, srv_handlers s !! i = Some h -> detector h = Some d ->
     handle (porcupine d) < srv_instances s) /\
  (forall i j hi hj di dj,
     srv_handlers s !! i = Some hi -> srv_handlers s !! j = Some hj ->
     detector hi = Some di -> detector hj = Some dj ->
     handle (porcupine di) = handle (porcupine dj) -> i = j).

End Service.

(** ** Start-up: the registry tables [main] builds

    [main] walks two directory listings.  Of every file it reads the
    stem, the name of the directory two levels up and the path as a
    string; [pathlib] and the file system stay outside, so a listed file
    is the record of these three. *)
Module Path.
Record t := mk {
  str : string;
  stem : string;
  parent_parent_name : string;
}.
End Path.

(** [s.split(sep)] for a one-character separator. *)
Fixpoint str_split (sep : ascii) (s : string) : list string :=
  match s with
  | EmptyString => [EmptyString]
  | String c s' =>
      if Ascii.eqb c sep then EmptyString :: str_split sep s'
      else
        match str_split sep s' with
        | f :: fs => String c f :: fs
        | [] => [String c EmptyString]
        end
  end.

(** [s.rsplit(sep, maxsplit=1)] for a one-character separator. *)
Fixpoint str_rsplit1 (sep : ascii) (s : string) : list string :=
  match s with
  | EmptyString => [EmptyString]
  | String c s' =>
      match str_rsplit1 sep s' with
      | [h; t] => [String c h; t]
      | [w] => if Ascii.eqb c sep then [EmptyString; w] else [String c w]
      | other => other
      end
  end.

(** [l[-1]] and [l[0]] on the non-empty lists the two splits return. *)
Definition last_item (l : list string) : string := List.last l "".
Definition first_item (l : list string) : string := hd "" l.

(** [d[k] = v] on an insertion-ordered dictionary: an existing key keeps
    its place and takes the new value, a new key goes to the end. *)
Fixpoint dict_set {V} (d : dict V) (k : string) (v : V) : dict V :=
  match d with
  | [] => [(k, v)]
  | (k', v') :: d' =>
      if decide (k' = k) then (k, v) :: d' else (k', v') :: dict_set d' k v
  end.

(** The loop over [lib/common/*.pv]: language, the last field of the
    stem, to path. *)
Definition load_pv_lib_paths (files : list Path.t) : gmap string string :=
  foldl (fun pv_lib_paths lib_path =>
           let lib_lang := last_item (str_split "_" (Path.stem lib_path)) in
           <[lib_lang := Path.str lib_path]> pv_lib_paths)
    ∅ files.

(** One pass of the loop over [resources/**/*.ppn]. *)
Definition load_keyword_file (system : string) (keywords : dict Keyword)
    (kw_path : Path.t) : dict Keyword :=
  let kw_system := last_item (str_split "_" (Path.stem kw_path)) in
  if decide (kw_system <> system) then keywords
  else
    let kw_lang := Path.parent_parent_name kw_path in
    let kw_name := first_item (str_rsplit1 "_" (Path.stem kw_path)) in
    dict_set keywords kw_name (mkKeyword kw_lang kw_name (Path.str kw_path)).

Definition load_keywords (system : string) (files : list Path.t) : dict Keyword :=
  foldl (load_keyword_file system) [] files.

(** The models of the Info event, one per keyword in dictionary order
    (attribution, the installed flag and the version are constants and
    left out). *)
Definition wake_models (keywords : dict Keyword) : list WakeModel :=
  (fun kw => mkWakeModel (name kw) (name kw +:+ " (" +:+ language kw +:+ ")")
               (name kw) [language kw]) <$> keywords.*2.

Section Startup.
Context {PV : PvPorcupine} {CV : AudioChunkConverter}.

(** The [State] [main] constructs, and the handler the server builds
    around it for a connection. *)
Definition main_state (system : string) (pv_files ppn_files : list Path.t) : State :=
  State_init (load_pv_lib_paths pv_files) (Some (load_keywords system ppn_files)).

Definition main_handler (system : string) (ppn_files : list Path.t)
    (sensitivity : Q) (client_id : string) : Porcupine1EventHandler :=
  Handler_init (wake_models (load_keywords system ppn_files)) sensitivity client_id.

(** ** Vocabulary for the sensitivity *)

(** The same environment with every stored sensitivity mapped by [f]:
    the handler's own and the one kept in its detector. *)
Definition resens_detector (f : Q -> Q) (d : Detector) : Detector :=
  mkDetector (porcupine d) (f (sensitivity d)).

Definition resens_handler (f : Q -> Q) (h : Porcupine1EventHandler)
    : Porcupine1EventHandler :=
  mkHandler (f (cli_sensitivity h)) (wyoming_info_event h) (client_id h) (converter h)
    (audio_buffer h) (detected h) (resens_detector f <$> detector h)
    (chunk_format h) (bytes_per_chunk h).

Definition resens (f : Q -> Q) (env : Env) : Env :=
  mkEnv (resens_handler f (self env)) (shared env) (instances env)
    (written env) (processed env).

Definition res_map {A} (g : A -> A) (r : Res A) : Res A :=
  match r with
  | Ret a => Ret (g a)
  | Raise e => Raise e
  | Hang => Hang
  end.

(** A computation the sensitivity passes through untouched: mapping the
    stored sensitivities before the run or after it is the same, [g]
    doing the mapping on the result. *)
Definition sens_blind {A} (g : (Q -> Q) -> A -> A) (m : M A) : Prop :=
  forall f env, m (resens f env) = (resens f (m env).1, res_map (g f) (m env).2).

(** A sample that fits sixteen bits. *)
Definition int16 (v : Z) : Prop := (-32768 <= v <= 32767)%Z.

End Startup.

(** Listings to run the start-up on. *)
Module Files.

Definition pv_files : list Path.t :=
  [Path.mk "data/lib/common/porcupine_params.pv" "porcupine_params" "lib";
   Path.mk "data/lib/common/porcupine_params_fr.pv" "porcupine_params_fr" "lib";
   Path.mk "data/lib/common/porcupine_params_en.pv" "porcupine_params_en" "lib"].

Definition ppn_files : list Path.t :=
  [Path.mk "data/resources/en/linux/alexa_linux.ppn" "alexa_linux" "en";
   Path.mk "data/resources/en/raspberry-pi/alexa_raspberry-pi.ppn" "alexa_raspberry-pi" "en";
   Path.mk "data/resources/fr/linux/bonjour_linux.ppn" "bonjour_linux" "fr";
   Path.mk "data/resources/en/linux/hey_google_linux.ppn" "hey_google_linux" "en";
   Path.mk "data/resources/en/old/alexa_linux.ppn" "alexa_linux" "en"].

End Files.

(** ** A small instance to run the handler on

    A stand-in engine with frames of two samples (four bytes).  It
    remembers how many keyword paths it was built with and how many
    frames it has scored, and fires keyword [v - 1] on a frame whose
    first sample [v] lies between 1 and the number of keywords.  The
    converter stands in for wyoming's on the chunks used here: a chunk
    that is 16 kHz, 16 bit and mono already passes unchanged, as it does
    there; any other chunk is refused with the error [audioop] raises
    for a sample width it does not know. *)
Module Scenario.

#[export] Instance toy_engine : PvPorcupine := {|
  pv_internal := nat * nat;
  pv_create lib paths :=
    if decide (lib = "") then inl (EngineError "model")
    else inr (2, (length paths, 0));
  pv_process st frame :=
    let '(n, seen) := st in
    ((n, S seen),
     match frame with
     | v :: _ => if ((0 <? v) && (v <=? Z.of_nat n))%Z then (v - 1)%Z else (-1)%Z
     | [] => (-1)%Z
     end)
|}.

#[export] Instance plain_converter : AudioChunkConverter := {|
  converter_t := unit;
  converter_new _ _ _ := tt;
  converter_convert c chunk :=
    if decide (AudioChunk.rate chunk = 16000%Z /\ AudioChunk.width chunk = 2%Z /\
               AudioChunk.channels chunk = 1%Z)
    then inr (c, chunk)
    else inl (AudioopError "Size should be 1, 2, 3 or 4")
|}.

Definition en_keywords_2 : dict Keyword :=
  [("alexa", mkKeyword "en" "alexa" "alexa_linux.ppn");
   ("computer", mkKeyword "en" "computer" "computer_linux.ppn");
   ("ordinateur", mkKeyword "fr" "ordinateur" "ordinateur_linux.ppn")].

Definition libs : gmap string string := {[ "en" := "porcupine_params_en.pv" ]}.

(** A registry with two English keywords and a French one. *)
Definition registry : State := State_init libs (Some en_keywords_2).

(** The registry [main] builds when no keyword file is found. *)
Definition empty_registry : State := State_init libs (Some []).

Definition new_handler : Porcupine1EventHandler := Handler_init [] 0.5%Q "1".

Definition fresh (st : State) : Env := mkEnv new_handler st 0 [] [].

(** The detector the first acquisition over [registry] returns, after
    it has scored [seen] frames, and a handler armed with it. *)
Definition detector_seen (seen : nat) : Detector :=
  mkDetector (@mkPorcupine toy_engine 0 2 (2, seen)) 0.5%Q.

Definition detector0 : Detector := detector_seen 0.

Definition armed_env : Env := mkEnv (bound_to detector0 new_handler) registry 1 [] [].

Definition mk_event (type : string) (names : option (list string)) (audio : bytes)
    : Event.t :=
  Event.mk type names 16000 2 1 (Some 7%Z) audio.

Definition detect (names : option (list string)) : Event.t := mk_event "detect" names [].
Definition audio_start : Event.t := mk_event "audio-start" None [].
Definition audio_stop : Event.t := mk_event "audio-stop" None [].
Definition audio_chunk (audio : bytes) : Event.t := mk_event "audio-chunk" None audio.
Definition ping : Event.t := mk_event "ping" None [].

(** An audio chunk of five-byte samples, which no converter takes. *)
Definition wide_chunk : Event.t :=
  Event.mk "audio-chunk" None 16000 5 1 (Some 7%Z) [x00; x00; x00; x00; x00].

(** The environment after the armed handler has disconnected, and a
    second connection made after that. *)
Definition after_disconnect : Env := (disconnect armed_env).1.

Definition second_connection : Env :=
  mkEnv new_handler (shared after_disconnect) (instances after_disconnect)
    (written after_disconnect) (processed after_disconnect).

(** One frame of silence, one frame on which the engine fires keyword 0,
    and one on which it fires keyword 1. *)
Definition silence : bytes := [x00; x00; x00; x00].
Definition says_alexa : bytes := [x01; x00; x00; x00].
Definition says_computer : bytes := [x02; x00; x00; x00].

(** An armed handler holding three bytes of an unfinished frame. *)
Definition armed_with_leftover : Env :=
  mkEnv (with_audio_buffer [x01; x00; x00] (bound_to detector0 new_handler))
    registry 1 [] [].

Definition describe : Event.t := mk_event "describe" None [].

(** Three bytes sent before any bracket, then a bracket's AudioStart
    and a chunk of exactly one frame. *)
Definition stale_bytes : list Event.t :=
  [detect (Some ["alexa"]); audio_chunk [x01; x02; x03]].

Definition stale_then_bracket : list Event.t :=
  stale_bytes ++ [audio_start; audio_chunk [x0a; x0b; x0c; x0d]].

(** A bracket in which the engine fires keyword 0. *)
Definition bracket : list Event.t := [audio_start; audio_chunk says_alexa; audio_stop].

(** A chunk of one frame and three bytes more. *)
Definition seven_bytes : Event.t := audio_chunk (silence ++ [x00; x00; x00]).

End Scenario.

(** Every byte, by number: the table behind the pack/unpack round trip. *)
Definition byte_of_nat (n : nat) : byte := default x00 (Byte.of_N (N.of_nat n)).

Definition roundtrip_at (l h : nat) : bool :=
  match bytes_of_int16 (int16_of_bytes (byte_of_nat l) (byte_of_nat h)) with
  | [a; b] => Byte.eqb a (byte_of_nat l) && Byte.eqb b (byte_of_nat h)
  | _ => false
  end.

(** The range check behind the bound on samples, byte pair by byte pair. *)
Definition int16_at (l h : nat) : bool :=
  let v := int16_of_bytes (byte_of_nat l) (byte_of_nat h) in
  ((-32768 <=? v) && (v <=? 32767))%Z.

(** * Proofs *)

(** ** Samples and bytes *)

Lemma byte_of_nat_to_N (b : byte) :
  byte_of_nat (N.to_nat (Byte.to_N b)) = b /\ N.to_nat (Byte.to_N b) < 256.
Proof.
  unfold byte_of_nat. rewrite N2Nat.id, Byte.of_to_N. split; [done|].
  pose proof (Byte.to_N_bounded b). lia.
Qed.

Lemma roundtrip_table :
  forallb (fun l => forallb (roundtrip_at l) (seq 0 256)) (seq 0 256) = true.
Proof. vm_compute. reflexivity. Qed.

Lemma bytes_of_int16_of_bytes (lo hi : byte) :
  bytes_of_int16 (int16_of_bytes lo hi) = [lo; hi].
Proof.
  destruct (byte_of_nat_to_N lo) as [Hlo Hl], (byte_of_nat_to_N hi) as [Hhi Hh].
  pose proof roundtrip_table as T.
  rewrite forallb_forall in T.
  specialize (T (N.to_nat (Byte.to_N lo))).
  rewrite forallb_forall in T.
  assert (R : roundtrip_at (N.to_nat (Byte.to_N lo)) (N.to_nat (Byte.to_N hi)) = true).
  { apply T; apply in_seq; lia. }
  unfold roundtrip_at in R. rewrite Hlo, Hhi in R.
  destruct (bytes_of_int16 (int16_of_bytes lo hi)) as [|a [|b [|]]]; try discriminate.
  apply andb_prop in R as [Ra Rb].
  apply Byte.byte_dec_bl in Ra, Rb. by subst.
Qed.

Lemma struct_pack_samples (b : bytes) (m : nat) :
  length b = m * 2 -> struct_pack_h (samples b) = b.
Proof.
  revert b. induction m as [|m IH]; intros b Hb.
  - by destruct b.
  - destruct b as [|lo [|hi rest]]; simpl in Hb; try lia.
    unfold struct_pack_h in *. cbn [samples flat_map].
    rewrite bytes_of_int16_of_bytes. cbn [app]. do 2 f_equal. apply IH. lia.
Qed.

Lemma struct_unpack_from_repeat (fl : nat) (b : bytes) :
  length b = fl * 2 ->
  struct_unpack_from (str_repeat "h" fl) b = Some (samples b).
Proof.
  revert b. induction fl as [|fl IH]; intros b Hb.
  - by destruct b.
  - destruct b as [|lo [|hi rest]]; simpl in Hb; try lia.
    simpl. rewrite IH by lia. done.
Qed.

Lemma length_samples (b : bytes) (m : nat) :
  length b = m * 2 -> length (samples b) = m.
Proof.
  revert b. induction m as [|m IH]; intros b Hb.
  - by destruct b.
  - destruct b as [|lo [|hi rest]]; simpl in Hb; try lia.
    simpl. f_equal. apply IH. lia.
Qed.

(** ** The monad, [get_porcupine] and [_load_keyword] *)

Section Proofs.
Context {PV : PvPorcupine} {CV : AudioChunkConverter}.

Ltac mred :=
  unfold mbind, M_bind, bind, modify_self, get_self, get_shared, set_self,
    write_event, ret, raise, hang in *;
  cbn beta iota in *.

Lemma get_porcupine_eq (sens : Q) (env : Env) :
  get_porcupine sens env =
  match porcupine_args (shared env) with
  | inl e => (env, Raise e)
  | inr (lib, paths) =>
      match pv_create lib paths with
      | inl e => (env, Raise e)
      | inr (fl, st) =>
          (mkEnv (self env) (shared env) (S (instances env)) (written env) (processed env),
           Ret (mkDetector (mkPorcupine (instances env) fl st) sens))
      end
  end.
Proof.
  unfold get_porcupine, porcupine_args, pvporcupine_create. mred.
  destruct (keywords (shared env)) as [kws|]; [|done].
  destruct (en_keyword_paths kws (dict_keys kws) []) as [e|[|p ps]]; [done..|].
  mred. destruct (pv_lib_paths (shared env) !! "en") as [lib|]; [|done].
  mred. destruct (pv_create lib (p :: ps)) as [e|[fl st]]; done.
Qed.

Lemma _load_keyword_eq (env : Env) :
  _load_keyword env =
  match porcupine_args (shared env) with
  | inl e => (env, Raise e)
  | inr (lib, paths) =>
      match pv_create lib paths with
      | inl e => (env, Raise e)
      | inr (fl, st) =>
          (mkEnv
             (bound_to (mkDetector (mkPorcupine (instances env) fl st)
                          (cli_sensitivity (self env))) (self env))
             (shared env) (S (instances env)) (written env) (processed env),
           Ret tt)
      end
  end.
Proof.
  unfold _load_keyword. mred. rewrite get_porcupine_eq.
  destruct (porcupine_args (shared env)) as [e|[lib paths]]; [done|].
  destruct (pv_create lib paths) as [e|[fl st]]; done.
Qed.

(** ** The drain loop *)

Lemma with_internal_id (d : Detector) : with_internal (internal (porcupine d)) d = d.
Proof. by destruct d as [[? ? ?] ?]. Qed.

Lemma frames_of_lookup (k n i : nat) (b : bytes) :
  i < k -> frames_of k n b !! i = Some (take n (drop (i * n) b)).
Proof.
  revert i b. induction k as [|k IH]; intros i b Hi; [lia|].
  destruct i as [|i]; [done|].
  cbn [frames_of]. rewrite lookup_cons. cbn. rewrite IH by lia.
  by rewrite drop_drop.
Qed.

Lemma length_frames_of (k n : nat) (b : bytes) : length (frames_of k n b) = k.
Proof. revert b. induction k as [|k IH]; intros b; cbn; [done|]. by rewrite IH. Qed.

Lemma concat_frames_of (k n : nat) (b : bytes) :
  mjoin (frames_of k n b) = take (k * n) b.
Proof.
  revert b. induction k as [|k IH]; intros b; [done|].
  cbn [frames_of]. cbn. rewrite IH. rewrite <- take_take_drop. done.
Qed.

Lemma frames_of_full (k n : nat) (b : bytes) :
  k * n <= length b -> Forall (fun f => length f = n) (frames_of k n b).
Proof.
  revert b. induction k as [|k IH]; intros b Hb; cbn [frames_of]; constructor.
  - rewrite length_take. lia.
  - apply IH. rewrite length_drop. lia.
Qed.

Lemma drain_body_eq (chunk : AudioChunk.t) (env : Env) (d : Detector) :
  armed (self env) d ->
  bytes_per_chunk (self env) <= length (audio_buffer (self env)) ->
  drain_body chunk env = (drained 1 (AudioChunk.timestamp chunk) d env, Ret tt).
Proof.
  intros (Hd & Hf & Hn & Hpos) Hlen.
  unfold drain_body, detector_process, drained. mred.
  rewrite Hf, struct_unpack_from_repeat by (rewrite length_take; lia).
  mred. rewrite Hd. cbn [frames_of fmap list_fmap score].
  destruct (pv_process _ _) as [i' keyword_index]. cbn [fst snd].
  destruct env as [h sh inst wr pr]. cbn in *.
  unfold detections. cbn [flat_map]. rewrite app_nil_r, Nat.add_0_r.
  destruct (0 <=? keyword_index)%Z; mred; cbn; rewrite ?app_nil_r; reflexivity.
Qed.

Lemma armed_drained (k : nat) (ts : option Z) (d : Detector) (env : Env) :
  armed (self env) d ->
  armed (self (drained k ts d env)) (with_internal (score (internal (porcupine d))
    (samples <$> frames_of k (bytes_per_chunk (self env)) (audio_buffer (self env)))).1 d).
Proof. intros (Hd & Hf & Hn & Hpos). by repeat split. Qed.

Lemma score_app (i : pv_internal) (fs gs : list (list Z)) :
  score i (fs ++ gs) =
  ((score (score i fs).1 gs).1, (score i fs).2 ++ (score (score i fs).1 gs).2).
Proof.
  revert i. induction fs as [|f fs IH]; intros i; cbn [app score fst snd].
  - by destruct (score i gs).
  - destruct (pv_process i f) as [i' x]. rewrite IH.
    destruct (score i' fs) as [i'' xs]. cbn [fst snd].
    by destruct (score i'' gs).
Qed.

Lemma detections_app (ts : option Z) (xs ys : list Z) :
  detections ts (xs ++ ys) = detections ts xs ++ detections ts ys.
Proof. unfold detections. apply flat_map_app. Qed.

Lemma frames_of_S (k n : nat) (b : bytes) :
  frames_of (S k) n b = frames_of 1 n b ++ frames_of k n (drop (1 * n) b).
Proof. cbn. by rewrite Nat.add_0_r. Qed.

Lemma drained_S (k : nat) (ts : option Z) (d : Detector) (env : Env) :
  drained (S k) ts d env =
  drained k ts
    (with_internal (score (internal (porcupine d))
       (samples <$> frames_of 1 (bytes_per_chunk (self env)) (audio_buffer (self env)))).1 d)
    (drained 1 ts d env).
Proof.
  unfold drained. cbv zeta.
  cbn [self with_detector with_audio_buffer bytes_per_chunk audio_buffer
    written processed shared instances with_internal internal porcupine].
  rewrite frames_of_S, fmap_app, score_app. cbn [fst snd].
  rewrite detections_app, drop_drop, !app_assoc.
  replace (S k * bytes_per_chunk (self env))
    with (1 * bytes_per_chunk (self env) + k * bytes_per_chunk (self env)) by lia.
  reflexivity.
Qed.

Lemma drained_0 (ts : option Z) (d : Detector) (env : Env) :
  detector (self env) = Some d -> drained 0 ts d env = env.
Proof.
  intros Hd. destruct env as [[] ? ? ? ?]. cbn in Hd. subst.
  unfold drained. cbn. rewrite !app_nil_r, with_internal_id. done.
Qed.

(** The loop, once armed: it consumes exactly the [k] full frames the
    buffer holds, and [k] units of fuel are enough. *)
Lemma drain_spec (k : nat) :
  forall (fuel : nat) (chunk : AudioChunk.t) (env : Env) (d : Detector),
    armed (self env) d ->
    k * bytes_per_chunk (self env) <= length (audio_buffer (self env)) ->
    length (audio_buffer (self env)) < S k * bytes_per_chunk (self env) ->
    k <= fuel ->
    drain fuel chunk env = (drained k (AudioChunk.timestamp chunk) d env, Ret tt).
Proof.
  induction k as [|k IH]; intros fuel chunk env d Harmed Hlo Hhi Hfuel.
  - destruct fuel; cbn [drain]; mred;
      (destruct (decide _); [lia|]); by rewrite drained_0 by apply Harmed.
  - destruct fuel as [|fuel]; [lia|]. cbn [drain]. mred.
    destruct (decide _) as [_|Hn]; [|cbn in Hn; lia].
    rewrite (drain_body_eq _ _ d) by (done || lia). mred.
    rewrite (drained_S k).
    apply IH.
    + by apply armed_drained.
    + cbn. rewrite length_drop. lia.
    + cbn. rewrite length_drop. lia.
    + lia.
Qed.

(** With a frame length of zero the loop condition never fails: the
    loop does not end, whatever the fuel. *)
Lemma drain_zero_frame_hangs (fuel : nat) :
  forall (chunk : AudioChunk.t) (env : Env) (d : Detector),
    detector (self env) = Some d ->
    chunk_format (self env) = "" ->
    bytes_per_chunk (self env) = 0 ->
    (drain fuel chunk env).2 = Hang.
Proof.
  induction fuel as [|fuel IH]; intros chunk env d Hd Hf Hn; cbn [drain]; mred;
    (destruct (decide _) as [_|Hlt]; [|rewrite Hn in Hlt; lia]); [done|].
  unfold drain_body, detector_process. mred. rewrite Hf, Hn.
  cbn [take struct_unpack_from]. mred. rewrite Hd.
  destruct (pv_process _ _) as [i' keyword_index].
  destruct (0 <=? keyword_index)%Z; mred; by eapply IH.
Qed.


(** ** [handle_event], branch by branch *)

Lemma div_bounds (len n : nat) :
  0 < n -> len / n * n <= len /\ len < S (len / n) * n.
Proof.
  intros Hn. pose proof (Nat.div_mod_eq len n).
  pose proof (Nat.mod_upper_bound len n). lia.
Qed.

Lemma is_type_describe (t : string) : t = "describe" -> Describe.is_type t = true.
Proof. by intros ->. Qed.

Lemma is_type_detect (t : string) :
  t = "detect" -> Describe.is_type t = false /\ Detect.is_type t = true.
Proof. by intros ->. Qed.

Lemma is_type_audio_start (t : string) :
  t = "audio-start" ->
  Describe.is_type t = false /\ Detect.is_type t = false /\ AudioStart.is_type t = true.
Proof. by intros ->. Qed.

Lemma is_type_audio_chunk (t : string) :
  t = "audio-chunk" ->
  Describe.is_type t = false /\ Detect.is_type t = false /\
  AudioStart.is_type t = false /\ AudioChunk.is_type t = true.
Proof. by intros ->. Qed.

Lemma is_type_audio_stop (t : string) :
  t = "audio-stop" ->
  Describe.is_type t = false /\ Detect.is_type t = false /\
  AudioStart.is_type t = false /\ AudioChunk.is_type t = false /\
  AudioStop.is_type t = true.
Proof. by intros ->. Qed.

Lemma handle_event_describe (event : Event.t) (env : Env) :
  Event.type event = "describe" ->
  handle_event event env =
  (mkEnv (self env) (shared env) (instances env)
     (written env ++ [Info (wyoming_info_event (self env))]) (processed env), Ret true).
Proof.
  intros Ht. unfold handle_event. rewrite (is_type_describe _ Ht). by mred.
Qed.

Lemma handle_event_detect (event : Event.t) (env : Env) :
  Event.type event = "detect" ->
  handle_event event env =
  if truthy (Event.names event) then
    match _load_keyword env with
    | (env', Ret _) => (env', Ret true)
    | (env', Raise e) => (env', Raise e)
    | (env', Hang) => (env', Hang)
    end
  else (env, Ret true).
Proof.
  intros Ht. unfold handle_event.
  destruct (is_type_detect _ Ht) as (-> & ->). cbn [Detect.from_event Detect.names].
  destruct (truthy (Event.names event)); mred; [|done].
  by destruct (_load_keyword env) as [env' [[]| |]].
Qed.

Lemma handle_event_audio_start (event : Event.t) (env : Env) :
  Event.type event = "audio-start" ->
  handle_event event env =
  (mkEnv (with_detected false (self env)) (shared env) (instances env)
     (written env) (processed env), Ret true).
Proof.
  intros Ht. unfold handle_event.
  destruct (is_type_audio_start _ Ht) as (-> & -> & ->). by mred.
Qed.

Lemma handle_event_audio_stop (event : Event.t) (env : Env) :
  Event.type event = "audio-stop" ->
  handle_event event env =
  (mkEnv (self env) (shared env) (instances env)
     (written env ++ (if detected (self env) then [] else [NotDetected]))
     (processed env), Ret false).
Proof.
  intros Ht. unfold handle_event.
  destruct (is_type_audio_stop _ Ht) as (-> & -> & -> & -> & ->). mred.
  destruct env as [h ? ? ? ?]; cbn. destruct (detected h); cbn; by rewrite ?app_nil_r.
Qed.

Lemma handle_event_audio_chunk (event : Event.t) (env : Env) (d : Detector) :
  Event.type event = "audio-chunk" ->
  armed (self env) d ->
  handle_event event env =
  match converter_convert (converter (self env)) (AudioChunk.from_event event) with
  | inl e => (env, Raise e)
  | inr (conv', chunk) => (chunk_step conv' chunk d env, Ret true)
  end.
Proof.
  intros Ht Harmed. pose proof Harmed as (Hd & Hf & Hn & Hpos).
  unfold handle_event, chunk_step.
  destruct (is_type_audio_chunk _ Ht) as (-> & -> & -> & ->). mred.
  rewrite Hd. mred. rewrite Hd. mred.
  destruct (converter_convert _ _) as [e|[conv' chunk]]; [done|]. mred.
  set (env1 := mkEnv _ _ _ _ _).
  assert (Harmed1 : armed (self env1) d) by (by repeat split).
  assert (Hpos1 : 0 < bytes_per_chunk (self env1)) by (cbn; lia).
  destruct (div_bounds (length (audio_buffer (self env1))) _ Hpos1) as [Hlo Hhi].
  rewrite (drain_spec _ _ _ _ d Harmed1 Hlo Hhi).
  - done.
  - transitivity (length (audio_buffer (self env1))); [nia|cbn; lia].
Qed.

Lemma handle_event_audio_chunk_unarmed (event : Event.t) (env : Env) :
  Event.type event = "audio-chunk" ->
  detector (self env) = None ->
  handle_event event env =
  match _load_keyword env with
  | (env1, Ret _) => handle_event event env1
  | (env1, Raise e) => (env1, Raise e)
  | (env1, Hang) => (env1, Hang)
  end.
Proof.
  intros Ht Hd. rewrite _load_keyword_eq.
  destruct (porcupine_args (shared env)) as [e|[lib paths]] eqn:Hargs.
  - unfold handle_event.
    destruct (is_type_audio_chunk _ Ht) as (-> & -> & -> & ->). mred.
    rewrite Hd, _load_keyword_eq, Hargs. done.
  - destruct (pv_create lib paths) as [e|[fl st]] eqn:Hc.
    + unfold handle_event.
      destruct (is_type_audio_chunk _ Ht) as (-> & -> & -> & ->). mred.
      rewrite Hd, _load_keyword_eq, Hargs, Hc. done.
    + unfold handle_event.
      destruct (is_type_audio_chunk _ Ht) as (-> & -> & -> & ->). mred.
      rewrite Hd, _load_keyword_eq, Hargs, Hc. done.
Qed.

Lemma handle_event_other (event : Event.t) (env : Env) :
  Describe.is_type (Event.type event) = false ->
  Detect.is_type (Event.type event) = false ->
  AudioStart.is_type (Event.type event) = false ->
  AudioChunk.is_type (Event.type event) = false ->
  AudioStop.is_type (Event.type event) = false ->
  handle_event event env = (env, Ret true).
Proof. intros H1 H2 H3 H4 H5. unfold handle_event. by rewrite H1, H2, H3, H4, H5. Qed.

(** ** Runs of audio chunks *)

Lemma frames_of_app_prefix (k n : nat) (b c : bytes) :
  k * n <= length b -> frames_of k n (b ++ c) = frames_of k n b.
Proof.
  revert b. induction k as [|k IH]; intros b Hb; [done|].
  cbn [frames_of]. rewrite take_app_le, drop_app_le by lia.
  rewrite IH; [done|]. rewrite length_drop. lia.
Qed.

Lemma frames_of_add (a b n : nat) (l : bytes) :
  frames_of (a + b) n l = frames_of a n l ++ frames_of b n (drop (a * n) l).
Proof.
  revert l. induction a as [|a IH]; intros l; [done|].
  cbn [frames_of Nat.add]. rewrite IH, drop_drop. done.
Qed.

Lemma chunk_step_spec (conv' : converter_t) (chunk : AudioChunk.t) (d : Detector)
    (env : Env) :
  armed (self env) d ->
  let n := bytes_per_chunk (self env) in
  let b := audio_buffer (self env) ++ AudioChunk.audio chunk in
  let env' := chunk_step conv' chunk d env in
  exists d',
    armed (self env') d' /\
    handle (porcupine d') = handle (porcupine d) /\
    frame_length (porcupine d') = frame_length (porcupine d) /\
    bytes_per_chunk (self env') = n /\
    converter (self env') = conv' /\
    detected (self env') = detected (self env) /\
    audio_buffer (self env') = drop (length b / n * n) b /\
    processed env' = processed env ++ (samples <$> frames_of (length b / n) n b) /\
    shared env' = shared env /\
    instances env' = instances env.
Proof.
  intros (Hd & Hf & Hn & Hpos). cbv zeta. unfold chunk_step. cbv zeta.
  eexists. repeat split; cbn; try done.
Qed.

Lemma run_loop_chunks (events : list Event.t) :
  forall (env : Env) (d : Detector),
    armed (self env) d ->
    Forall (fun event => Event.type event = "audio-chunk") events ->
    length (audio_buffer (self env)) < bytes_per_chunk (self env) ->
    let n := bytes_per_chunk (self env) in
    let stream := audio_buffer (self env) ++ mjoin (normalized (converter (self env)) events) in
    let k := length stream / n in
    exists env' d',
      run_loop events env = (env', conversion_outcome (converter (self env)) events) /\
      armed (self env') d' /\
      handle (porcupine d') = handle (porcupine d) /\
      bytes_per_chunk (self env') = n /\
      detected (self env') = detected (self env) /\
      audio_buffer (self env') = drop (k * n) stream /\
      processed env' = processed env ++ (samples <$> frames_of k n stream) /\
      shared env' = shared env /\
      instances env' = instances env.
Proof.
  assert (forall (env : Env) (d : Detector),
            armed (self env) d ->
            length (audio_buffer (self env)) < bytes_per_chunk (self env) ->
            armed (self env) d /\
            handle (porcupine d) = handle (porcupine d) /\
            bytes_per_chunk (self env) = bytes_per_chunk (self env) /\
            detected (self env) = detected (self env) /\
            audio_buffer (self env) =
              drop (length (audio_buffer (self env) ++ []) / bytes_per_chunk (self env)
                    * bytes_per_chunk (self env)) (audio_buffer (self env) ++ []) /\
            processed env =
              processed env ++
              (samples <$> frames_of
                 (length (audio_buffer (self env) ++ []) / bytes_per_chunk (self env))
                 (bytes_per_chunk (self env)) (audio_buffer (self env) ++ [])) /\
            shared env = shared env /\
            instances env = instances env) as Hstay.
  { intros env d Harmed Hlen. rewrite app_nil_r.
    rewrite Nat.div_small by done. cbn. rewrite app_nil_r. by split_and!. }
  induction events as [|event events IH]; intros env d Harmed Hall Hlen; cbv zeta.
  - cbn [normalized conversion_outcome mjoin list_join].
    exists env, d. split; [done|]. by apply Hstay.
  - inversion_clear Hall as [|? ? Ht Hall'].
    cbn [run_loop normalized conversion_outcome]. unfold bind.
    rewrite (handle_event_audio_chunk _ _ d Ht Harmed).
    destruct (converter_convert _ _) as [e|[conv' chunk]].
    { cbn [mjoin list_join]. exists env, d. split; [done|]. by apply Hstay. }
    destruct (chunk_step_spec conv' chunk d env Harmed)
      as (d1 & Harmed1 & Hh1 & Hfl1 & Hn1 & Hc1 & Hdet1 & Hb1 & Hp1 & Hs1 & Hi1).
    set (env1 := chunk_step conv' chunk d env) in *.
    set (n := bytes_per_chunk (self env)) in *.
    assert (Hpos : 0 < n) by (destruct Harmed as (_ & _ & ? & ?); unfold n; lia).
    set (b := audio_buffer (self env) ++ AudioChunk.audio chunk) in *.
    destruct (div_bounds (length b) n Hpos) as [Hlo Hhi].
    assert (Hlen1 : length (audio_buffer (self env1)) < bytes_per_chunk (self env1)).
    { rewrite Hb1, Hn1, length_drop. lia. }
    destruct (IH env1 d1 Harmed1 Hall' Hlen1)
      as (env' & d' & Hrun & Harmed' & Hh' & Hn' & Hdet' & Hb' & Hp' & Hs' & Hi').
    exists env', d'. rewrite Hrun. cbn [mjoin list_join].
    rewrite Hc1, Hn1, Hb1 in *.
    set (rest := mjoin (normalized conv' events)) in *.
    rewrite app_assoc. fold b.
    assert (Hsplit : b ++ rest = take (length b / n * n) b ++ (drop (length b / n * n) b ++ rest)).
    { by rewrite app_assoc, take_drop. }
    assert (Hk : length (b ++ rest) / n =
                 length b / n + length (drop (length b / n * n) b ++ rest) / n).
    { rewrite Hsplit at 1. rewrite length_app, length_take.
      rewrite Nat.min_l by lia.
      rewrite Nat.add_comm, Nat.div_add by lia. lia. }
    split_and!; try congruence.
    + rewrite Hb', Hk, Nat.mul_add_distr_r, <- drop_drop.
      rewrite (drop_app_le b) by lia. done.
    + rewrite Hp', Hp1, Hk, frames_of_add, fmap_app, app_assoc.
      rewrite (frames_of_app_prefix (length b / n) n b rest) by lia.
      rewrite (drop_app_le b) by lia. done.
Qed.

(** ** Frame alignment *)

(** C1, as the code has it.  The buffer belongs to the connection, not
    to the bracket: AudioStart does not empty it, and what it holds when
    a run of audio chunk events begins, always less than a frame, is the
    beginning of the first frame scored.  So take the stream to be the
    buffered bytes followed by the converted payloads of the run, and
    let it total [k] frames and [r < n] further bytes, [n] being the
    frame size in bytes.  The engine's [process] is then called exactly
    [k] times; call [i] receives the samples of bytes [i*n .. i*n+n) of
    the stream, in order; packed back, the frames are the first [k*n]
    bytes of the stream, so no byte is scored twice or skipped; and the
    [r] bytes left stay in the buffer.  With [r = 0] the whole stream is
    scored and the buffer ends empty, however the bytes were split into
    chunks.  On a buffer that is empty at the start the stream is the
    payloads alone.  The run ends as the conversions do: normally, or
    with the exception of the first chunk the converter refuses, the
    payloads before it making up the stream. *)
Theorem frame_alignment (events : list Event.t) (env : Env) (d : Detector) (k r : nat) :
  armed (self env) d ->
  length (audio_buffer (self env)) < bytes_per_chunk (self env) ->
  Forall (fun event => Event.type event = "audio-chunk") events ->
  let n := bytes_per_chunk (self env) in
  let stream :=
    audio_buffer (self env) ++ mjoin (normalized (converter (self env)) events) in
  length stream = k * n + r ->
  r < n ->
  exists env' frames,
    run_loop events env = (env', conversion_outcome (converter (self env)) events) /\
    processed env' = processed env ++ frames /\
    length frames = k /\
    (forall i, i < k -> frames !! i = Some (samples (take n (drop (i * n) stream)))) /\
    mjoin (struct_pack_h <$> frames) = take (k * n) stream /\
    audio_buffer (self env') = drop (k * n) stream /\
    length (audio_buffer (self env')) = r /\
    (r = 0 -> mjoin (struct_pack_h <$> frames) = stream /\ audio_buffer (self env') = []).
Proof.
  intros Harmed Hlt Hall n stream Hlen Hr.
  destruct (run_loop_chunks events env d Harmed Hall Hlt)
    as (env' & d' & Hrun & _ & _ & _ & _ & Hb & Hp & _ & _).
  fold n stream in Hb, Hp.
  assert (Hn : n = frame_length (porcupine d) * 2) by apply Harmed.
  clearbody n stream.
  assert (Hk : length stream / n = k).
  { symmetry. apply (Nat.div_unique _ _ _ r); lia. }
  rewrite Hk in Hb, Hp.
  assert (Hpack : mjoin (struct_pack_h <$> (samples <$> frames_of k n stream))
                  = take (k * n) stream).
  { rewrite <- concat_frames_of. f_equal. rewrite <- list_fmap_compose.
    rewrite <- (list_fmap_id (frames_of k n stream)) at 2.
    apply Forall_fmap_ext_1.
    eapply Forall_impl; [apply frames_of_full; lia|].
    intros f Hf. cbn in *. apply (struct_pack_samples f (frame_length (porcupine d))).
    lia. }
  exists env', (samples <$> frames_of k n stream). split_and!; try done.
  - by rewrite length_fmap, length_frames_of.
  - intros i Hi. by rewrite list_lookup_fmap, frames_of_lookup.
  - rewrite Hb, length_drop. lia.
  - intros ->. rewrite Hpack, Hb.
    rewrite take_ge, drop_ge by lia. done.
Qed.

(** ** Events of other types *)

(** C9.  An event that is none of Describe, Detect, AudioStart,
    AudioChunk and AudioStop changes nothing: the handler (buffer,
    detector, detected flag, frame format), the shared state and what
    was written and scored are as before, and [handle_event] returns
    [True]. *)
Theorem unexpected_event_changes_nothing (event : Event.t) (env : Env) :
  Describe.is_type (Event.type event) = false ->
  Detect.is_type (Event.type event) = false ->
  AudioStart.is_type (Event.type event) = false ->
  AudioChunk.is_type (Event.type event) = false ->
  AudioStop.is_type (Event.type event) = false ->
  exists env',
    handle_event event env = (env', Ret true) /\
    audio_buffer (self env') = audio_buffer (self env) /\
    detector (self env') = detector (self env) /\
    detected (self env') = detected (self env) /\
    chunk_format (self env') = chunk_format (self env) /\
    bytes_per_chunk (self env') = bytes_per_chunk (self env) /\
    env' = env.
Proof.
  intros H1 H2 H3 H4 H5. exists env.
  by rewrite handle_event_other.
Qed.

(** ** What no method call does *)

Lemma evolves_refl (env : Env) : evolves env env.
Proof.
  split_and!; try done.
  - intros d' Hd. left. by exists d'.
  - exists []. by rewrite app_nil_r.
Qed.

Lemma evolves_trans (env1 env2 env3 : Env) :
  evolves env1 env2 -> evolves env2 env3 -> evolves env1 env3.
Proof.
  intros (Hs1 & Hi1 & Hd1 & Hf1 & new1 & Hw1 & Ha1) (Hs2 & Hi2 & Hd2 & Hf2 & new2 & Hw2 & Ha2).
  split_and!.
  - congruence.
  - lia.
  - intros d3 H3. destruct (Hd2 d3 H3) as [(d2 & H2 & Hh)|Hfresh]; [|right; lia].
    destruct (Hd1 d2 H2) as [(d1 & H1 & Hh')|Hfresh]; [|right; lia].
    left. exists d1. split; congruence.
  - auto.
  - exists (new1 ++ new2). split.
    + by rewrite Hw2, Hw1, app_assoc.
    + by apply Forall_app.
Qed.

Lemma respects_ret {A} (a : A) : respects (ret a).
Proof. intros env env' r [= <- _]. apply evolves_refl. Qed.

Lemma respects_raise {A} (e : exn) : respects (@raise _ _ A e).
Proof. intros env env' r [= <- _]. apply evolves_refl. Qed.

Lemma respects_hang {A} : respects (@hang _ _ A).
Proof. intros env env' r [= <- _]. apply evolves_refl. Qed.

Lemma respects_get_self : respects get_self.
Proof. intros env env' r [= <- _]. apply evolves_refl. Qed.

Lemma respects_bind {A B} (m : M A) (k : A -> M B) :
  respects m -> (forall a, respects (k a)) -> respects (bind m k).
Proof.
  intros Hm Hk env env' r. unfold bind.
  destruct (m env) as [env1 [a|e|]] eqn:Hrun; intros Heq.
  - eapply evolves_trans; [by eapply Hm|by eapply Hk].
  - injection Heq as <- _. by eapply Hm.
  - injection Heq as <- _. by eapply Hm.
Qed.

Lemma respects_modify_self (f : Porcupine1EventHandler -> Porcupine1EventHandler) :
  (forall h, detector (f h) = detector h \/ detector (f h) = None) ->
  (forall h, detected (f h) = true -> detected h = true) ->
  respects (modify_self f).
Proof.
  intros Hdet Hflag env env' r. unfold modify_self. mred. intros [= <- _].
  split_and!; cbn; try done.
  - intros d' Hd. left. exists d'. destruct (Hdet (self env)); [|congruence].
    split; congruence.
  - apply Hflag.
  - exists []. by rewrite app_nil_r.
Qed.

Lemma respects_write_event (e : OutEvent) :
  (forall nm ts, e = Detection nm ts -> nm = "alexa") -> respects (write_event e).
Proof.
  intros He env env' r. unfold write_event. intros [= <- _].
  split_and!; cbn; try done.
  - intros d' Hd. left. by exists d'.
  - exists [e]. split; [done|]. by constructor.
Qed.

Lemma respects__load_keyword : respects _load_keyword.
Proof.
  intros env env' r. rewrite _load_keyword_eq.
  destruct (porcupine_args (shared env)) as [e|[lib paths]].
  { intros [= <- _]. apply evolves_refl. }
  destruct (pv_create lib paths) as [e|[fl st]]; intros [= <- _].
  { apply evolves_refl. }
  split_and!; cbn; try done.
  - lia.
  - intros d' [= <-]. right. cbn. lia.
  - exists []. by rewrite app_nil_r.
Qed.

Lemma respects_detector_process (frame : list Z) : respects (detector_process frame).
Proof.
  intros env env' r. unfold detector_process.
  destruct (detector (self env)) as [d|] eqn:Hd.
  - destruct (pv_process _ _) as [i' x]. intros [= <- _].
    split_and!; cbn; try done.
    + intros d' [= <-]. left. by exists d.
    + exists []. by rewrite app_nil_r.
  - intros [= <- _]. apply evolves_refl.
Qed.

Ltac respects_step :=
  first
    [ apply respects_ret | apply respects_raise | apply respects_hang
    | apply respects_get_self | apply respects__load_keyword
    | apply respects_detector_process
    | apply respects_write_event; intros ? ? [=]; by subst
    | apply respects_modify_self; [intros ?; by left|done]
    | apply respects_bind; [|intros ?] ].

Lemma respects_drain_body (chunk : AudioChunk.t) : respects (drain_body chunk).
Proof.
  unfold drain_body, mbind, M_bind. respects_step; [respects_step|].
  destruct (struct_unpack_from _ _); [|respects_step].
  respects_step; [respects_step|]. respects_step.
  - destruct (0 <=? _)%Z; respects_step.
  - respects_step.
Qed.

Lemma respects_drain (fuel : nat) (chunk : AudioChunk.t) : respects (drain fuel chunk).
Proof.
  induction fuel as [|fuel IH]; cbn [drain]; unfold mbind, M_bind.
  - respects_step; [respects_step|]. destruct (decide _); respects_step.
  - respects_step; [respects_step|]. destruct (decide _); [|respects_step].
    respects_step; [apply respects_drain_body|done].
Qed.

Lemma respects_handle_event (event : Event.t) : respects (handle_event event).
Proof.
  unfold handle_event, mbind, M_bind.
  repeat match goal with
         | |- respects (if ?b then _ else _) => destruct b
         end.
  - repeat respects_step.
  - respects_step; [|respects_step]. destruct (truthy _); respects_step.
  - repeat respects_step.
  - respects_step; [respects_step|]. respects_step.
    { destruct (detector _); respects_step. }
    respects_step; [respects_step|]. respects_step.
    { destruct (detector _); respects_step. }
    destruct (converter_convert _ _) as [e|[conv' chunk]]; [respects_step|].
    respects_step; [respects_step|]. respects_step; [respects_step|].
    respects_step; [respects_step|]. respects_step; [apply respects_drain|respects_step].
  - respects_step; [respects_step|]. respects_step; [|respects_step].
    destruct (negb _); respects_step.
  - respects_step.
Qed.

Lemma respects_disconnect : respects disconnect.
Proof.
  unfold disconnect, mbind, M_bind. respects_step; [respects_step|].
  destruct (detector _); [|respects_step].
  apply respects_modify_self; [intros ?; by right|done].
Qed.

(** ** The cache is out of every method's sight *)

Lemma cache_blind_ret {A} (a : A) : cache_blind (ret a).
Proof. done. Qed.

Lemma cache_blind_raise {A} (e : exn) : cache_blind (@raise _ _ A e).
Proof. done. Qed.

Lemma cache_blind_hang {A} : cache_blind (@hang _ _ A).
Proof. done. Qed.

Lemma cache_blind_get_self : cache_blind get_self.
Proof. done. Qed.

Lemma cache_blind_modify_self (f : Porcupine1EventHandler -> Porcupine1EventHandler) :
  cache_blind (modify_self f).
Proof. done. Qed.

Lemma cache_blind_write_event (e : OutEvent) : cache_blind (write_event e).
Proof. done. Qed.

Lemma cache_blind_bind {A B} (m : M A) (k : A -> M B) :
  cache_blind m -> (forall a, cache_blind (k a)) -> cache_blind (bind m k).
Proof.
  intros Hm Hk c env. unfold bind. rewrite Hm.
  destruct (m env) as [env1 [a|e|]]; cbn [fst snd]; [apply Hk|done..].
Qed.

Lemma cache_blind__load_keyword : cache_blind _load_keyword.
Proof.
  intros c env. rewrite !_load_keyword_eq.
  change (porcupine_args (shared (with_cache c env))) with (porcupine_args (shared env)).
  destruct (porcupine_args (shared env)) as [e|[lib paths]]; [done|].
  destruct (pv_create lib paths) as [e|[fl st]]; done.
Qed.

Lemma cache_blind_get_porcupine (sens : Q) : cache_blind (get_porcupine sens).
Proof.
  intros c env. rewrite !get_porcupine_eq.
  change (porcupine_args (shared (with_cache c env))) with (porcupine_args (shared env)).
  destruct (porcupine_args (shared env)) as [e|[lib paths]]; [done|].
  destruct (pv_create lib paths) as [e|[fl st]]; done.
Qed.

Lemma cache_blind_detector_process (frame : list Z) : cache_blind (detector_process frame).
Proof.
  intros c env. unfold detector_process. cbn [self with_cache].
  destruct (detector (self env)); [|done]. by destruct (pv_process _ _).
Qed.

Ltac cache_blind_step :=
  first
    [ apply cache_blind_ret | apply cache_blind_raise | apply cache_blind_hang
    | apply cache_blind_get_self | apply cache_blind__load_keyword
    | apply cache_blind_detector_process | apply cache_blind_write_event
    | apply cache_blind_modify_self
    | apply cache_blind_bind; [|intros ?] ].

Lemma cache_blind_drain_body (chunk : AudioChunk.t) : cache_blind (drain_body chunk).
Proof.
  unfold drain_body, mbind, M_bind. cache_blind_step; [cache_blind_step|].
  destruct (struct_unpack_from _ _); [|cache_blind_step].
  cache_blind_step; [cache_blind_step|]. cache_blind_step.
  - destruct (0 <=? _)%Z; cache_blind_step.
  - cache_blind_step.
Qed.

Lemma cache_blind_drain (fuel : nat) (chunk : AudioChunk.t) :
  cache_blind (drain fuel chunk).
Proof.
  induction fuel as [|fuel IH]; cbn [drain]; unfold mbind, M_bind.
  - cache_blind_step; [cache_blind_step|]. destruct (decide _); cache_blind_step.
  - cache_blind_step; [cache_blind_step|]. destruct (decide _); [|cache_blind_step].
    cache_blind_step; [apply cache_blind_drain_body|done].
Qed.

Lemma cache_blind_handle_event (event : Event.t) : cache_blind (handle_event event).
Proof.
  unfold handle_event, mbind, M_bind.
  repeat match goal with
         | |- cache_blind (if ?b then _ else _) => destruct b
         end.
  - repeat cache_blind_step.
  - cache_blind_step; [|cache_blind_step]. destruct (truthy _); cache_blind_step.
  - repeat cache_blind_step.
  - cache_blind_step; [cache_blind_step|]. cache_blind_step.
    { destruct (detector _); cache_blind_step. }
    cache_blind_step; [cache_blind_step|]. cache_blind_step.
    { destruct (detector _); cache_blind_step. }
    destruct (converter_convert _ _) as [e|[conv' chunk]]; [cache_blind_step|].
    cache_blind_step; [cache_blind_step|]. cache_blind_step; [cache_blind_step|].
    cache_blind_step; [cache_blind_step|].
    cache_blind_step; [apply cache_blind_drain|cache_blind_step].
  - cache_blind_step; [cache_blind_step|]. cache_blind_step; [|cache_blind_step].
    destruct (negb _); cache_blind_step.
  - cache_blind_step.
Qed.

Lemma cache_blind_disconnect : cache_blind disconnect.
Proof.
  unfold disconnect, mbind, M_bind. cache_blind_step; [cache_blind_step|].
  destruct (detector _); cache_blind_step.
Qed.

(** ** The buffer between events *)

Lemma session_inv_frame (env env' : Env) :
  self env' = self env -> shared env' = shared env ->
  session_inv env -> session_inv env'.
Proof. unfold session_inv. by intros -> ->. Qed.

Lemma session_inv_bound (env : Env) (lib : string) (paths : list string)
    (fl : nat) (st : pv_internal) :
  frame_length_positive ->
  session_inv env ->
  porcupine_args (shared env) = inr (lib, paths) ->
  pv_create lib paths = inr (fl, st) ->
  session_inv
    (mkEnv (bound_to (mkDetector (mkPorcupine (instances env) fl st)
                        (cli_sensitivity (self env))) (self env))
       (shared env) (S (instances env)) (written env) (processed env)).
Proof.
  intros Hpos Hinv Hargs Hc. pose proof (Hpos _ _ _ _ Hc) as Hfl.
  unfold session_inv in *. cbn.
  split_and!.
  - by split_and!.
  - destruct (detector (self env)) as [d|].
    + destruct Hinv as ((_ & _ & Hn & _) & Hlen & lib' & paths' & st' & Hargs' & Hc').
      rewrite Hargs in Hargs'. injection Hargs' as <- <-.
      rewrite Hc in Hc'. injection Hc' as -> _. lia.
    + rewrite Hinv. cbn. lia.
  - by exists lib, paths, st.
Qed.

Lemma session_inv_chunk (conv' : converter_t) (chunk : AudioChunk.t) (env : Env)
    (d : Detector) :
  session_inv env ->
  detector (self env) = Some d ->
  session_inv (chunk_step conv' chunk d env).
Proof.
  unfold session_inv at 1. intros Hinv Hd. rewrite Hd in Hinv.
  destruct Hinv as (Harmed & Hlen & lib & paths & st & Hargs & Hc).
  destruct (chunk_step_spec conv' chunk d env Harmed)
    as (d' & Harmed' & _ & Hfl & Hn & _ & _ & Hb & _ & Hs & _).
  unfold session_inv. destruct Harmed' as (Hd' & Hrest). rewrite Hd'.
  split_and!.
  - by split.
  - rewrite Hb, Hn, length_drop.
    assert (0 < bytes_per_chunk (self env)) as Hpos
      by (destruct Harmed as (_ & _ & ? & ?); lia).
    destruct (div_bounds (length (audio_buffer (self env) ++
      AudioChunk.audio chunk)) _ Hpos). lia.
  - exists lib, paths, st. by rewrite Hs, Hfl.
Qed.

Lemma session_inv_step (event : Event.t) (env env' : Env) (r : Res bool) :
  frame_length_positive ->
  session_inv env ->
  handle_event event env = (env', r) ->
  session_inv env' /\ r <> Hang.
Proof.
  intros Hpos Hinv.
  destruct (decide (Event.type event = "describe")) as [Ht|N1].
  { rewrite handle_event_describe by done. intros [= <- <-].
    split; [by eapply session_inv_frame|done]. }
  destruct (decide (Event.type event = "detect")) as [Ht|N2].
  { rewrite handle_event_detect, _load_keyword_eq by done.
    destruct (truthy _); [|by intros [= <- <-]].
    destruct (porcupine_args (shared env)) as [e|[lib paths]] eqn:Hargs;
      [by intros [= <- <-]|].
    destruct (pv_create lib paths) as [e|[fl st]] eqn:Hc; intros [= <- <-]; [done|].
    split; [by eapply session_inv_bound|done]. }
  destruct (decide (Event.type event = "audio-start")) as [Ht|N3].
  { rewrite handle_event_audio_start by done. intros [= <- <-].
    split; [|done]. revert Hinv. unfold session_inv. cbn.
    destruct (detector (self env)); [|done].
    intros ((? & ? & ? & ?) & ? & ?). by split_and!. }
  destruct (decide (Event.type event = "audio-chunk")) as [Ht|N4].
  { destruct (detector (self env)) as [d|] eqn:Hd.
    - assert (armed (self env) d) as Harmed.
      { unfold session_inv in Hinv. rewrite Hd in Hinv. apply Hinv. }
      rewrite (handle_event_audio_chunk _ _ d) by done.
      destruct (converter_convert _ _) as [e|[conv' chunk]]; intros [= <- <-]; [done|].
      split; [by apply session_inv_chunk|done].
    - rewrite handle_event_audio_chunk_unarmed, _load_keyword_eq by done.
      destruct (porcupine_args (shared env)) as [e|[lib paths]] eqn:Hargs;
        [by intros [= <- <-]|].
      destruct (pv_create lib paths) as [e|[fl st]] eqn:Hc; [by intros [= <- <-]|].
      pose proof (session_inv_bound _ _ _ _ _ Hpos Hinv Hargs Hc) as Hinv1.
      set (d := mkDetector _ _) in *. set (env1 := mkEnv _ _ _ _ _) in *.
      assert (armed (self env1) d) as Harmed.
      { unfold session_inv in Hinv1. apply Hinv1. }
      rewrite (handle_event_audio_chunk _ _ d) by done.
      destruct (converter_convert _ _) as [e|[conv' chunk]]; intros [= <- <-]; [done|].
      split; [by apply session_inv_chunk|done]. }
  destruct (decide (Event.type event = "audio-stop")) as [Ht|N5].
  { rewrite handle_event_audio_stop by done. intros [= <- <-].
    split; [by eapply session_inv_frame|done]. }
  rewrite handle_event_other by (by apply bool_decide_eq_false_2).
  by intros [= <- <-].
Qed.

Lemma reachable_session_inv (env0 env : Env) :
  frame_length_positive ->
  detector (self env0) = None /\ audio_buffer (self env0) = [] ->
  reachable env0 env ->
  session_inv env.
Proof.
  intros Hpos [Hd Hb] Hreach.
  induction Hreach as [|env1 ev env2 _ IH Hstep].
  - unfold session_inv. by rewrite Hd.
  - by destruct (session_inv_step ev env1 env2 (Ret true) Hpos IH Hstep).
Qed.

(** C8.  Let the engine ask for frames of at least one sample.  Take a
    connection from a new handler through any events answered with
    [True], and then one more event, whatever its outcome.  If a
    detector is bound afterwards, the frame size in bytes is twice its
    frame length and positive, and the buffer holds strictly fewer bytes
    than that; and the event was handled to the end (the loop ended). *)
Theorem buffer_below_one_frame
    (info : list WakeModel) (sens : Q) (id : string) (st : State) (n : nat)
    (env env' : Env) (event : Event.t) (r : Res bool) (d : Detector) :
  frame_length_positive ->
  reachable (mkEnv (Handler_init info sens id) st n [] []) env ->
  handle_event event env = (env', r) ->
  detector (self env') = Some d ->
  bytes_per_chunk (self env') = frame_length (porcupine d) * 2 /\
  0 < bytes_per_chunk (self env') /\
  length (audio_buffer (self env')) < bytes_per_chunk (self env') /\
  r <> Hang.
Proof.
  intros Hpos Hreach Hrun Hd.
  assert (session_inv env) as Hinv.
  { eapply reachable_session_inv; [exact Hpos| |exact Hreach]. by split. }
  destruct (session_inv_step _ _ _ _ Hpos Hinv Hrun) as [Hinv' Hr].
  unfold session_inv in Hinv'. rewrite Hd in Hinv'.
  destruct Hinv' as ((_ & _ & Hn & Hfl) & Hlen & _).
  split_and!; try done. lia.
Qed.

(** ** The server *)

Lemma srv_inv_connect (s : Server) (info : list WakeModel) (sens : Q) (id : string) :
  srv_inv s ->
  srv_inv (mkServer (srv_state s) (srv_instances s)
             (srv_handlers s ++ [Handler_init info sens id])).
Proof.
  intros (Hc & Hb & Hd). split_and!; cbn.
  - done.
  - intros i h d Hl Hdet.
    apply lookup_snoc_Some in Hl as [[_ Hl]|[_ <-]]; [eauto|done].
  - intros i j hi hj di dj Hi Hj Hdi Hdj Heq.
    apply lookup_snoc_Some in Hi as [[_ Hi]|[_ <-]]; [|done].
    apply lookup_snoc_Some in Hj as [[_ Hj]|[_ <-]]; [eauto|done].
Qed.

Lemma srv_inv_handle (s : Server) (i : nat) (h : Porcupine1EventHandler) (env' : Env) :
  srv_inv s ->
  srv_handlers s !! i = Some h ->
  evolves (srv_env s h) env' ->
  srv_inv (mkServer (shared env') (instances env') (<[i := self env']> (srv_handlers s))).
Proof.
  intros (Hc & Hb & Hd) Hi (Hs & Hn & Hdet & _ & _). cbn in Hs, Hn, Hdet.
  split_and!; cbn.
  - by rewrite Hs.
  - intros j hj dj Hj Hdj.
    apply list_lookup_insert_Some in Hj as [(<- & <- & _)|[Hne Hj]].
    + destruct (Hdet _ Hdj) as [(d & Hd0 & ->)|?]; [|lia].
      specialize (Hb i h d Hi Hd0). lia.
    + specialize (Hb _ _ _ Hj Hdj). lia.
  - intros j1 j2 h1 h2 d1 d2 H1 H2 Hd1 Hd2 Heq.
    apply list_lookup_insert_Some in H1 as [(<- & <- & _)|[Hne1 H1]];
      apply list_lookup_insert_Some in H2 as [(<- & <- & _)|[Hne2 H2]].
    + done.
    + destruct (Hdet _ Hd1) as [(d & Hd0 & Hh)|?].
      * eapply (Hd i j2); eauto. congruence.
      * specialize (Hb _ _ _ H2 Hd2). lia.
    + destruct (Hdet _ Hd2) as [(d & Hd0 & Hh)|?].
      * eapply (Hd j1 i); eauto. congruence.
      * specialize (Hb _ _ _ H1 Hd1). lia.
    + eauto.
Qed.

Lemma srv_inv_delete (s : Server) (i : nat) (env' : Env) :
  srv_inv s ->
  shared env' = srv_state s ->
  srv_instances s <= instances env' ->
  srv_inv (mkServer (shared env') (instances env') (delete i (srv_handlers s))).
Proof.
  intros (Hc & Hb & Hd) Hs Hn. split_and!; cbn.
  - by rewrite Hs.
  - intros j hj dj Hj Hdj. rewrite list_lookup_delete in Hj.
    specialize (Hb _ _ _ Hj Hdj). lia.
  - intros j1 j2 h1 h2 d1 d2 H1 H2 Hd1 Hd2 Heq.
    rewrite list_lookup_delete in H1, H2.
    specialize (Hd _ _ _ _ _ _ H1 H2 Hd1 Hd2 Heq).
    repeat case_decide; lia.
Qed.

Lemma srv_inv_step (s s' : Server) : srv_inv s -> srv_step s s' -> srv_inv s'.
Proof.
  intros Hinv Hstep. destruct Hstep as [s info sens id|s i h event env' r Hi Hrun|s i h env' r Hi Hrun].
  - by apply srv_inv_connect.
  - eapply srv_inv_handle; [done..|]. by eapply respects_handle_event.
  - apply respects_disconnect in Hrun as (Hs & Hn & _). by apply srv_inv_delete.
Qed.

Lemma srv_inv_init (libs : gmap string string) (kws : option (dict Keyword)) :
  srv_inv (srv_init libs kws).
Proof. split_and!; cbn; intros; done. Qed.

Lemma srv_inv_reachable (libs : gmap string string) (kws : option (dict Keyword))
    (s : Server) :
  rtc srv_step (srv_init libs kws) s -> srv_inv s.
Proof.
  intros Hs. eapply (rtc_ind_r srv_inv); [apply srv_inv_init| |exact Hs].
  intros y z _ Hstep Hy. by eapply srv_inv_step.
Qed.

(** C10.  No operation reads or writes the detector cache.  Handling an
    event, disconnecting and acquiring a detector each do the same
    whatever the cache holds, and leave the cache as they found it.  An
    acquisition that succeeds always builds a new engine, numbered after
    all earlier ones.  Hence, from server start and through any
    interleaving of connections, events and disconnections, the cache
    stays empty and no engine is bound to two handlers at once. *)
Theorem detector_cache_never_used :
  (forall event c env,
     handle_event event (with_cache c env) =
     (with_cache c (handle_event event env).1, (handle_event event env).2)) /\
  (forall c env,
     disconnect (with_cache c env) = (with_cache c (disconnect env).1, (disconnect env).2)) /\
  (forall sens c env,
     get_porcupine sens (with_cache c env) =
     (with_cache c (get_porcupine sens env).1, (get_porcupine sens env).2)) /\
  (forall sens env env' d,
     get_porcupine sens env = (env', Ret d) ->
     handle (porcupine d) = instances env /\ instances env' = S (instances env)) /\
  (forall libs kws s,
     rtc srv_step (srv_init libs kws) s ->
     detector_cache (srv_state s) = ∅ /\
     forall i j hi hj di dj,
       srv_handlers s !! i = Some hi -> srv_handlers s !! j = Some hj ->
       detector hi = Some di -> detector hj = Some dj ->
       handle (porcupine di) = handle (porcupine dj) -> i = j).
Proof.
  split_and!.
  - intros event. apply cache_blind_handle_event.
  - apply cache_blind_disconnect.
  - intros sens. apply cache_blind_get_porcupine.
  - intros sens env env' d. rewrite get_porcupine_eq.
    destruct (porcupine_args (shared env)) as [e|[lib paths]]; [done|].
    destruct (pv_create lib paths) as [e|[fl st]]; [done|].
    by intros [= <- <-].
  - intros libs kws s Hs. apply srv_inv_reachable in Hs as (Hc & _ & Hd). by split.
Qed.

(** ** Disconnecting and acquiring again *)

(** C5, as the code has it.  Disconnecting a handler with a bound
    detector only drops the handler's reference: the shared state, and
    with it the detector cache, is left as it was, so nothing is
    released into the pool.  Any acquisition after that, whatever the
    sensitivity and by whichever handler, builds a new engine, which is
    not the one that was dropped. *)
Theorem disconnect_drops_the_detector (env : Env) (d : Detector) :
  detector (self env) = Some d ->
  handle (porcupine d) < instances env ->
  exists env1,
    disconnect env = (env1, Ret tt) /\
    detector (self env1) = None /\
    shared env1 = shared env /\
    detector_cache (shared env1) = detector_cache (shared env) /\
    instances env1 = instances env /\
    forall h2 sens env2 d2,
      get_porcupine sens
        (mkEnv h2 (shared env1) (instances env1) (written env1) (processed env1))
      = (env2, Ret d2) ->
      handle (porcupine d2) = instances env /\
      handle (porcupine d2) <> handle (porcupine d) /\
      instances env2 = S (instances env) /\
      shared env2 = shared env.
Proof.
  intros Hd Hlt. unfold disconnect. mred. rewrite Hd. mred.
  eexists. split_and!; [done..|]. cbn.
  intros h2 sens env2 d2. rewrite get_porcupine_eq. cbn.
  destruct (porcupine_args (shared env)) as [e|[lib paths]]; [done|].
  destruct (pv_create lib paths) as [e|[fl st]]; [done|].
  intros [= <- <-]. cbn. split_and!; try done. lia.
Qed.

(** ** Detect *)

Lemma dict_get_app_notin {V} (pre l : dict V) (k : string) :
  k ∉ dict_keys pre -> dict_get (pre ++ l) k = dict_get l k.
Proof.
  induction pre as [|[k' v] pre IH]; intros Hk; [done|].
  cbn in *. apply not_elem_of_cons in Hk as [Hne Hk].
  destruct (decide (k' = k)); [congruence|]. by apply IH.
Qed.

Lemma en_keyword_paths_suffix (post : dict Keyword) :
  forall (pre : dict Keyword) (acc : list string),
    NoDup (dict_keys (pre ++ post)) ->
    en_keyword_paths (pre ++ post) (dict_keys post) acc =
    inr (acc ++ (model_path <$> en_keywords post)).
Proof.
  induction post as [|[k kw] post IH]; intros pre acc Hnd.
  - cbn. by rewrite app_nil_r.
  - cbn [dict_keys fmap list_fmap fst en_keyword_paths].
    assert (k ∉ dict_keys pre) as Hk.
    { unfold dict_keys in *. rewrite fmap_app in Hnd.
      apply NoDup_app in Hnd as (_ & Hdis & _).
      intros Hin. apply (Hdis _ Hin). cbn. left. }
    rewrite dict_get_app_notin by done. cbn [dict_get].
    destruct (decide (k = k)); [|done].
    specialize (IH (pre ++ [(k, kw)])). rewrite <- !app_assoc in IH. cbn [app] in IH.
    unfold en_keywords. cbn [fmap list_fmap snd]. rewrite filter_cons.
    fold (dict_keys post).
    destruct (decide (language kw = "en")).
    + rewrite IH by done. unfold en_keywords. cbn. by rewrite <- app_assoc.
    + by rewrite IH by done.
Qed.

Lemma porcupine_args_paths (st : State) (kws : dict Keyword) (lib : string)
    (paths : list string) :
  keywords st = Some kws ->
  NoDup (dict_keys kws) ->
  porcupine_args st = inr (lib, paths) ->
  pv_lib_paths st !! "en" = Some lib /\ paths = model_path <$> en_keywords kws.
Proof.
  intros Hk Hnd. unfold porcupine_args. rewrite Hk.
  pose proof (en_keyword_paths_suffix kws [] [] Hnd) as Hp. cbn [app] in Hp.
  rewrite Hp.
  destruct (model_path <$> en_keywords kws) as [|p ps]; [done|].
  destruct (pv_lib_paths st !! "en") as [lib'|]; [|done].
  by intros [= <- <-].
Qed.

(** C6, as the code has it.  A Detect event without names changes
    nothing: no detector is acquired and the default keyword is not
    used.  A Detect event with at least one name acquires a detector
    whether or not one is bound already, and never looks at the names:
    the engine is built for the model paths of all configured keywords
    whose language is ["en"], in registry order, so a name that is not
    configured is no error.  A failure of the acquisition is the
    exception [handle_event] raises, with the handler left as it was. *)
Theorem detect_arms_for_all_en_keywords (event : Event.t) (env : Env) :
  Event.type event = "detect" ->
  (truthy (Event.names event) = false -> handle_event event env = (env, Ret true)) /\
  (truthy (Event.names event) = true ->
   handle_event event env =
   match porcupine_args (shared env) with
   | inl e => (env, Raise e)
   | inr (lib, paths) =>
       match pv_create lib paths with
       | inl e => (env, Raise e)
       | inr (fl, st) =>
           (mkEnv
              (bound_to (mkDetector (mkPorcupine (instances env) fl st)
                           (cli_sensitivity (self env))) (self env))
              (shared env) (S (instances env)) (written env) (processed env),
            Ret true)
       end
   end) /\
  (forall kws lib paths,
     keywords (shared env) = Some kws ->
     NoDup (dict_keys kws) ->
     porcupine_args (shared env) = inr (lib, paths) ->
     pv_lib_paths (shared env) !! "en" = Some lib /\
     paths = model_path <$> en_keywords kws).
Proof.
  intros Ht. rewrite handle_event_detect by done. split_and!.
  - by intros ->.
  - intros ->. rewrite _load_keyword_eq.
    destruct (porcupine_args (shared env)) as [e|[lib paths]]; [done|].
    by destruct (pv_create lib paths) as [e|[fl st]].
  - intros kws lib paths. apply porcupine_args_paths.
Qed.

(** ** An empty registry *)

(** C7, at the failing input.  With a registry of zero keywords (the
    empty dictionary [main] builds when it finds no keyword file),
    [get_porcupine] does not raise its [ValueError("No keywords")]: the
    test against [None] lets the empty dictionary through, and the call
    ends in the [IndexError] of [keywords_paths[0]]. *)
Theorem empty_registry_raises_IndexError (sens : Q) (env : Env) :
  keywords (shared env) = Some [] ->
  get_porcupine sens env = (env, Raise IndexError) /\
  get_porcupine sens env <> (env, Raise (ValueError "No keywords")).
Proof.
  intros Hk. rewrite get_porcupine_eq. unfold porcupine_args. rewrite Hk. by cbn.
Qed.

(** ** AudioStop *)

(** C4, as the code has it.  Handling an AudioStop event writes
    NotDetected unless the detected flag is set, changes nothing else,
    and returns [False]: the event loop stops there.  Events that follow
    on the same connection are not handled, and the connection is torn
    down with [disconnect]. *)
Theorem audio_stop_ends_the_connection (event : Event.t) (rest : list Event.t) (env : Env) :
  Event.type event = "audio-stop" ->
  let env' :=
    mkEnv (self env) (shared env) (instances env)
      (written env ++ (if detected (self env) then [] else [NotDetected]))
      (processed env) in
  handle_event event env = (env', Ret false) /\
  run_loop (event :: rest) env = (env', Ret tt) /\
  exists env'',
    run (event :: rest) env = (env'', Ret tt) /\
    detector (self env'') = None /\
    written env'' = written env' /\
    processed env'' = processed env.
Proof.
  intros Ht env'.
  assert (Hrun : run_loop (event :: rest) env = (env', Ret tt)).
  { cbn [run_loop]. unfold bind. by rewrite handle_event_audio_stop. }
  split_and!; [by apply handle_event_audio_stop|done|].
  unfold run. rewrite Hrun. unfold disconnect. mred.
  destruct (detector (self env')) eqn:Hd; mred; eexists; split_and!; done.
Qed.

(** ** The detected flag and the name in Detection events *)

(** No event raises the detected flag. *)
Lemma detected_never_raised (event : Event.t) (env env' : Env) (r : Res bool) :
  handle_event event env = (env', r) ->
  detected (self env) = false ->
  detected (self env') = false.
Proof.
  intros Hrun Hf. apply respects_handle_event in Hrun as (_ & _ & _ & Hflag & _).
  destruct (detected (self env')); [|done]. rewrite Hflag in Hf; done.
Qed.

(** Every Detection event written while handling an event names
    ["alexa"], whatever index the engine returned. *)
Lemma detections_named_alexa (event : Event.t) (env env' : Env) (r : Res bool) :
  handle_event event env = (env', r) ->
  exists new,
    written env' = written env ++ new /\
    forall nm ts, Detection nm ts ∈ new -> nm = "alexa".
Proof.
  intros Hrun. apply respects_handle_event in Hrun as (_ & _ & _ & _ & new & Hw & Hall).
  exists new. split; [done|]. intros nm ts Hin.
  rewrite Forall_forall in Hall. by eapply Hall.
Qed.

(** ** Start-up: splitting file stems *)

Lemma last_item_cons (f : string) (fs : list string) :
  fs <> [] -> last_item (f :: fs) = last_item fs.
Proof. by destruct fs. Qed.

Lemma str_split_rsplit1 (sep : ascii) (s : string) :
  let t := last_item (str_split sep s) in
  str_split sep s <> [] /\
  str_split sep t = [t] /\
  ((str_split sep s = [s] /\ str_rsplit1 sep s = [s]) \/
   (1 < length (str_split sep s) /\
    exists h, str_rsplit1 sep s = [h; t] /\ s = h +:+ String sep t)).
Proof.
  induction s as [|c s IH]; cbv zeta in *.
  - split_and!; [done|done|]. by left.
  - destruct IH as (Hne & Ht & IH). cbn [str_split str_rsplit1].
    destruct (Ascii.eqb c sep) eqn:Hc.
    + apply Ascii.eqb_eq in Hc as ->.
      rewrite last_item_cons by done. split_and!; [done|done|]. right.
      split; [destruct (str_split sep s); [done|cbn; lia]|].
      destruct IH as [[Hs Hr]|(Hlen & h & Hr & Hs)].
      * rewrite Hr. rewrite Hs. exists "". split; reflexivity.
      * rewrite Hr. exists (String sep h). split; [done|]. exact (f_equal (String sep) Hs).
    + destruct IH as [[Hs Hr]|(Hlen & h & Hr & Hs)].
      * rewrite Hs, Hr in *. cbn in Ht |- *. cbn [str_split]. rewrite Hc, Ht.
        split_and!; [done|done|]. by left.
      * rewrite Hr. destruct (str_split sep s) as [|f [|f' fs]] eqn:Hsp;
          [done|cbn in Hlen; lia|].
        rewrite last_item_cons by done.
        rewrite last_item_cons in Ht, Hr, Hs by done.
        split_and!; [done|done|]. right. split; [cbn; lia|].
        exists (String c h). split; [done|]. exact (f_equal (String c) Hs).
Qed.

(** ** Start-up: the dictionaries *)

Lemma dict_keys_set {V} (d : dict V) (k : string) (v : V) :
  dict_keys (dict_set d k v) =
  if decide (k ∈ dict_keys d) then dict_keys d else dict_keys d ++ [k].
Proof.
  induction d as [|[k' v'] d IH]; cbn.
  - rewrite decide_False; [done|]. apply not_elem_of_nil.
  - destruct (decide (k' = k)) as [->|Hne]; cbn.
    + rewrite decide_True; [done|]. left.
    + unfold dict_keys in IH. rewrite IH.
      destruct (decide (k ∈ d.*1)) as [Hin|Hnin].
      * rewrite decide_True; [done|]. by right.
      * rewrite decide_False; [done|]. intros [?|?]%elem_of_cons; by subst.
Qed.

Lemma NoDup_dict_set {V} (d : dict V) (k : string) (v : V) :
  NoDup (dict_keys d) -> NoDup (dict_keys (dict_set d k v)).
Proof.
  intros Hnd. rewrite dict_keys_set. case_decide; [done|].
  apply NoDup_app. split_and!; [done| |apply NoDup_singleton].
  intros x Hx ->%list_elem_of_singleton. done.
Qed.

Lemma dict_get_set {V} (d : dict V) (k k' : string) (v : V) :
  dict_get (dict_set d k v) k' = if decide (k = k') then Some v else dict_get d k'.
Proof.
  induction d as [|[k0 v0] d IH]; cbn.
  - by destruct (decide (k = k')).
  - destruct (decide (k0 = k)) as [->|Hne]; cbn.
    + by destruct (decide (k = k')).
    + destruct (decide (k0 = k')) as [->|Hne'].
      * by rewrite decide_False by done.
      * done.
Qed.

Lemma elem_of_dict_set {V} (d : dict V) (k k' : string) (v v' : V) :
  (k', v') ∈ dict_set d k v -> (k', v') = (k, v) \/ (k', v') ∈ d.
Proof.
  induction d as [|[k0 v0] d IH]; cbn.
  - intros ->%list_elem_of_singleton. by left.
  - destruct (decide (k0 = k)) as [->|Hne].
    + intros [->|Hin]%elem_of_cons; [by left|]. right. by right.
    + intros [->|Hin]%elem_of_cons; [right; left|].
      destruct (IH Hin) as [?|?]; [by left|]. right. by right.
Qed.

Lemma load_keywords_snoc (system : string) (files : list Path.t) (p : Path.t) :
  load_keywords system (files ++ [p]) =
  load_keyword_file system (load_keywords system files) p.
Proof. unfold load_keywords. by rewrite foldl_snoc. Qed.

Lemma load_keywords_NoDup_keys (system : string) (files : list Path.t) :
  NoDup (dict_keys (load_keywords system files)).
Proof.
  induction files as [|p files IH] using rev_ind.
  - constructor.
  - rewrite load_keywords_snoc. unfold load_keyword_file.
    case_decide; [done|]. by apply NoDup_dict_set.
Qed.

Lemma load_keywords_from_file (system : string) (files : list Path.t)
    (k : string) (kw : Keyword) :
  (k, kw) ∈ load_keywords system files -> name kw = k.
Proof.
  induction files as [|p files IH] using rev_ind.
  - intros Hin. by apply elem_of_nil in Hin.
  - rewrite load_keywords_snoc. unfold load_keyword_file.
    case_decide; [done|]. by intros [[= -> ->]|Hin]%elem_of_dict_set; [|apply IH].
Qed.

(** X1.  A keyword is what its file says: named by the key it is stored
    under, with the language of the directory two levels up and the path
    of a listed file whose stem ends in the system; the stem is the name,
    an underscore and the system, or, without any underscore, the system
    alone, which then is the name too.  A system with an underscore in it
    matches no file. *)
Theorem load_keywords_entry (system : string) (files : list Path.t)
    (k : string) (kw : Keyword) :
  (k, kw) ∈ load_keywords system files ->
  name kw = k /\
  str_split "_" system = [system] /\
  exists p,
    p ∈ files /\
    kw = mkKeyword (Path.parent_parent_name p) k (Path.str p) /\
    last_item (str_split "_" (Path.stem p)) = system /\
    (Path.stem p = k +:+ String "_" system \/ (Path.stem p = system /\ k = system)).
Proof.
  induction files as [|p files IH] using rev_ind.
  - intros Hin. by apply elem_of_nil in Hin.
  - rewrite load_keywords_snoc. unfold load_keyword_file.
    assert (forall q, q ∈ files -> q ∈ files ++ [p]) as Hmono.
    { intros q Hq. apply elem_of_app. by left. }
    destruct (decide (last_item (str_split "_" (Path.stem p)) <> system)) as [Hn|Heq].
    + intros Hin. destruct (IH Hin) as (Hname & Hsys & q & Hq & Hrest).
      split_and!; [done..|]. exists q. split; [by apply Hmono|done].
    + apply dec_stable in Heq.
      intros [[= -> ->]|Hin]%elem_of_dict_set.
      * destruct (str_split_rsplit1 "_" (Path.stem p)) as (_ & Ht & Hcases).
        rewrite Heq in Ht, Hcases. split_and!; [done..|].
        exists p. split_and!; [apply elem_of_app; right; left|done..|].
        destruct Hcases as [[Hs Hr]|(_ & h & Hr & Hs)].
        -- right. rewrite Hs in Heq. cbn in Heq. rewrite Hr. cbn. by rewrite Heq.
        -- left. rewrite Hr. cbn. done.
      * destruct (IH Hin) as (Hname & Hsys & q & Hq & Hrest).
        split_and!; [done..|]. exists q. split; [by apply Hmono|done].
Qed.

(** X2.  Looking a name up in the keyword table finds the last listed file
    for the system with that name, and nothing when there is none. *)
Theorem load_keywords_lookup_last (system : string) (files : list Path.t) (k : string) :
  dict_get (load_keywords system files) k =
  (fun p => mkKeyword (Path.parent_parent_name p) k (Path.str p)) <$>
    last (filter (fun p => last_item (str_split "_" (Path.stem p)) = system /\
                           first_item (str_rsplit1 "_" (Path.stem p)) = k) files).
Proof.
  induction files as [|p files IH] using rev_ind; [done|].
  rewrite load_keywords_snoc, filter_app. unfold load_keyword_file.
  rewrite filter_cons, filter_nil.
  destruct (decide (last_item (str_split "_" (Path.stem p)) <> system)) as [Hn|Heq].
  - rewrite decide_False by (by intros [? _]). by rewrite app_nil_r.
  - apply dec_stable in Heq. rewrite dict_get_set.
    destruct (decide (first_item (str_rsplit1 "_" (Path.stem p)) = k)) as [Hk|Hk].
    + rewrite decide_True by done. rewrite last_snoc. cbn. by rewrite Hk.
    + rewrite decide_False by (by intros [_ ?]). by rewrite app_nil_r.
Qed.

(** X3.  The library table maps a language to the last listed library file
    whose stem ends in that language. *)
Theorem load_pv_lib_paths_lookup_last (files : list Path.t) (lang : string) :
  load_pv_lib_paths files !! lang =
  Path.str <$>
    last (filter (fun p => last_item (str_split "_" (Path.stem p)) = lang) files).
Proof.
  induction files as [|p files IH] using rev_ind; [done|].
  unfold load_pv_lib_paths in *. rewrite foldl_snoc, filter_app. cbv zeta.
  rewrite filter_cons, filter_nil, lookup_insert.
  destruct (decide (last_item (str_split "_" (Path.stem p)) = lang)) as [Hl|Hl].
  - by rewrite last_snoc.
  - by rewrite app_nil_r.
Qed.

Lemma names_are_keys (l : dict Keyword) :
  (forall k kw, (k, kw) ∈ l -> name kw = k) -> name <$> l.*2 = dict_keys l.
Proof.
  induction l as [|[k kw] l IH]; intros Hall; [done|].
  cbn. f_equal.
  - apply Hall. left.
  - apply IH. intros k' kw' Hin. apply Hall. by right.
Qed.

Lemma dict_get_elem_of {V} (l : dict V) (k : string) (v : V) :
  dict_get l k = Some v -> (k, v) ∈ l.
Proof.
  induction l as [|[k' v'] l IH]; cbn; [done|].
  destruct (decide (k' = k)) as [->|Hne].
  - intros [= ->]. left.
  - intros Hget. right. by apply IH.
Qed.

Lemma load_keywords_names (system : string) (files : list Path.t) :
  name <$> (load_keywords system files).*2 = dict_keys (load_keywords system files).
Proof.
  apply names_are_keys. intros k kw Hin.
  by apply (load_keywords_from_file system files).
Qed.

(** X4.  The keyword table [main] builds is a proper dictionary whose keys
    are the names of its keywords. *)
Theorem load_keywords_well_formed (system : string) (files : list Path.t) :
  NoDup (dict_keys (load_keywords system files)) /\
  name <$> (load_keywords system files).*2 = dict_keys (load_keywords system files) /\
  forall k kw, dict_get (load_keywords system files) k = Some kw -> name kw = k.
Proof.
  split_and!; [apply load_keywords_NoDup_keys|apply load_keywords_names|].
  intros k kw Hget%dict_get_elem_of.
  by apply (load_keywords_from_file system files).
Qed.

(** X5.  Acquisition over the state [main] builds.  It never raises the
    [ValueError] for missing keywords and never fails inside the loop
    over the keywords: without an English keyword it raises [IndexError],
    whether or not an English library is there; else without an English
    library it raises [KeyError]; else the engine is created from the
    English library and the paths of the English keywords in table
    order, and its failure, if any, is what is raised. *)
Theorem main_state_get_porcupine (system : string) (pv_files ppn_files : list Path.t)
    (h : Porcupine1EventHandler) (n : nat) (w : list OutEvent) (pr : list (list Z))
    (sens : Q) :
  let env := mkEnv h (main_state system pv_files ppn_files) n w pr in
  get_porcupine sens env =
  match model_path <$> en_keywords (load_keywords system ppn_files) with
  | [] => (env, Raise IndexError)
  | paths =>
      match load_pv_lib_paths pv_files !! "en" with
      | None => (env, Raise (KeyError "en"))
      | Some lib =>
          match pv_create lib paths with
          | inl e => (env, Raise e)
          | inr (fl, st) =>
              (mkEnv h (main_state system pv_files ppn_files) (S n) w pr,
               Ret (mkDetector (mkPorcupine n fl st) sens))
          end
      end
  end.
Proof.
  cbv zeta. rewrite get_porcupine_eq. unfold porcupine_args, main_state. cbn.
  pose proof (en_keyword_paths_suffix (load_keywords system ppn_files) [] []
                (load_keywords_NoDup_keys system ppn_files)) as Hp.
  cbn [app] in Hp. rewrite Hp.
  destruct (model_path <$> en_keywords (load_keywords system ppn_files)) as [|p ps]; [done|].
  destruct (load_pv_lib_paths pv_files !! "en") as [lib|]; [|done].
  by destruct (pv_create lib (p :: ps)) as [e|[fl st]].
Qed.

(** X6.  Describe on a connection of the server [main] starts: the Info
    event lists one model per keyword of the table, in table order and
    under distinct names, whatever the keyword's language; so the
    English keywords, the only ones an engine is ever built for, are
    among the advertised ones. *)
Theorem describe_advertises_every_keyword (system : string) (ppn_files : list Path.t)
    (sens : Q) (id : string) (st : State) (n : nat) (w : list OutEvent)
    (pr : list (list Z)) (event : Event.t) :
  Event.type event = "describe" ->
  let kws := load_keywords system ppn_files in
  let env := mkEnv (main_handler system ppn_files sens id) st n w pr in
  exists models,
    handle_event event env =
      (mkEnv (self env) st n (w ++ [Info models]) pr, Ret true) /\
    wm_name <$> models = dict_keys kws /\
    NoDup (wm_name <$> models) /\
    wm_languages <$> models = (fun kw => [language kw]) <$> kws.*2 /\
    (name <$> en_keywords kws) `sublist_of` (wm_name <$> models).
Proof.
  intros Ht kws env. exists (wake_models kws).
  assert (wm_name <$> wake_models kws = dict_keys kws) as Hnames.
  { unfold wake_models. rewrite <- list_fmap_compose. apply load_keywords_names. }
  split_and!.
  - by rewrite handle_event_describe.
  - done.
  - rewrite Hnames. apply load_keywords_NoDup_keys.
  - unfold wake_models. by rewrite <- list_fmap_compose.
  - rewrite Hnames. unfold kws. rewrite <- (load_keywords_names system ppn_files).
    apply fmap_sublist, sublist_filter.
Qed.

(** ** Describe, AudioStart and AudioStop in a run *)

Lemma env_eta (env : Env) :
  mkEnv (self env) (shared env) (instances env) (written env) (processed env) = env.
Proof. by destruct env. Qed.

(** X7.  Describe can be asked any number of times: each event writes the
    handler's Info event once more and nothing else changes. *)
Theorem describe_repeated (events : list Event.t) (env : Env) :
  Forall (fun event => Event.type event = "describe") events ->
  run_loop events env =
  (mkEnv (self env) (shared env) (instances env)
     (written env ++ replicate (length events) (Info (wyoming_info_event (self env))))
     (processed env), Ret tt).
Proof.
  revert env. induction events as [|event events IH]; intros env Hall.
  - cbn. by rewrite app_nil_r, env_eta.
  - inversion_clear Hall as [|? ? Ht Hall'].
    cbn [run_loop]. unfold bind. rewrite handle_event_describe by done.
    rewrite IH by done. cbn. by rewrite <- app_assoc.
Qed.

Lemma reachable_detected_false (env0 env : Env) :
  detected (self env0) = false -> reachable env0 env -> detected (self env) = false.
Proof.
  intros H0 Hreach. induction Hreach as [|env1 ev env2 _ IH Hstep]; [done|].
  by eapply detected_never_raised.
Qed.

(** X8.  On every connection the detected flag stays unset, whatever was
    scored; so each AudioStop writes exactly one NotDetected event and
    returns [False]. *)
Theorem audio_stop_always_writes_not_detected
    (info : list WakeModel) (sens : Q) (id : string) (st : State) (n : nat)
    (env : Env) (event : Event.t) :
  reachable (mkEnv (Handler_init info sens id) st n [] []) env ->
  Event.type event = "audio-stop" ->
  detected (self env) = false /\
  handle_event event env =
  (mkEnv (self env) (shared env) (instances env) (written env ++ [NotDetected])
     (processed env), Ret false).
Proof.
  intros Hreach Ht.
  assert (detected (self env) = false) as Hf.
  { eapply reachable_detected_false; [|exact Hreach]. done. }
  split; [done|]. by rewrite handle_event_audio_stop, Hf.
Qed.

(** ** What one audio chunk writes and scores *)

Lemma detections_filter (ts : option Z) (indices : list Z) :
  detections ts indices =
  (fun _ => Detection "alexa" ts) <$> filter (fun i => (0 <= i)%Z) indices.
Proof.
  induction indices as [|i indices IH]; [done|].
  unfold detections in *. cbn [flat_map]. rewrite filter_cons, IH.
  destruct (Z.leb_spec 0 i).
  - by rewrite decide_True by done.
  - by rewrite decide_False by lia.
Qed.

Lemma length_score (i : pv_internal) (frames : list (list Z)) :
  length (score i frames).2 = length frames.
Proof.
  revert i. induction frames as [|f fs IH]; intros i; [done|].
  cbn [score]. destruct (pv_process i f) as [i' x]. specialize (IH i').
  destruct (score i' fs) as [i'' xs]. cbn in *. by rewrite IH.
Qed.

(** X9.  An armed handler handling one audio chunk that the converter
    turns into [chunk]: with [frames] the full frames of the buffer
    extended by the converted payload, the engine is fed exactly
    [frames], in order, starting from the state it was in; one Detection,
    naming alexa and carrying the timestamp of the converted chunk, is
    written for each index the engine returned that is not negative, in
    the order of the frames; and the handler keeps the engine in the
    state the last frame left it in.  A chunk the converter refuses ends
    the event in the converter's exception with nothing changed. *)
Theorem audio_chunk_scores_and_writes (event : Event.t) (env : Env) (d : Detector) :
  Event.type event = "audio-chunk" ->
  armed (self env) d ->
  match converter_convert (converter (self env)) (AudioChunk.from_event event) with
  | inl e => handle_event event env = (env, Raise e)
  | inr (conv', chunk) =>
      let n := bytes_per_chunk (self env) in
      let b := audio_buffer (self env) ++ AudioChunk.audio chunk in
      let frames := samples <$> frames_of (length b / n) n b in
      let sc := score (internal (porcupine d)) frames in
      exists env',
        handle_event event env = (env', Ret true) /\
        processed env' = processed env ++ frames /\
        written env' = written env ++
          ((fun _ => Detection "alexa" (AudioChunk.timestamp chunk)) <$>
             filter (fun i => (0 <= i)%Z) sc.2) /\
        length sc.2 = length frames /\
        detector (self env') = Some (with_internal sc.1 d)
  end.
Proof.
  intros Ht Harmed. rewrite (handle_event_audio_chunk _ _ d Ht Harmed).
  destruct (converter_convert _ _) as [e|[conv' chunk]]; [done|].
  cbv zeta. eexists. split; [done|].
  unfold chunk_step, drained. cbn. rewrite detections_filter. split_and!; try done.
  apply length_score.
Qed.

(** ** The frames the engine is given *)

Lemma int16_table :
  forallb (fun l => forallb (int16_at l) (seq 0 256)) (seq 0 256) = true.
Proof. vm_compute. reflexivity. Qed.

Lemma int16_of_bytes_int16 (lo hi : byte) : int16 (int16_of_bytes lo hi).
Proof.
  destruct (byte_of_nat_to_N lo) as [Hlo Hl], (byte_of_nat_to_N hi) as [Hhi Hh].
  pose proof int16_table as T. rewrite forallb_forall in T.
  specialize (T (N.to_nat (Byte.to_N lo))). rewrite forallb_forall in T.
  assert (R : int16_at (N.to_nat (Byte.to_N lo)) (N.to_nat (Byte.to_N hi)) = true).
  { apply T; apply in_seq; lia. }
  unfold int16_at in R. rewrite Hlo, Hhi in R.
  apply andb_prop in R as [R1 R2]. unfold int16. lia.
Qed.

Lemma samples_int16 (m : nat) :
  forall b : bytes, length b <= m -> Forall int16 (samples b).
Proof.
  induction m as [|m IH]; intros b Hb.
  - destruct b; [constructor|cbn in Hb; lia].
  - destruct b as [|lo [|hi rest]]; [constructor..|].
    cbn [samples]. constructor; [apply int16_of_bytes_int16|].
    apply IH. cbn in Hb. lia.
Qed.

(** X10.  Every frame an armed handler passes to the engine while
    handling an audio chunk has exactly the engine's frame length, and
    each of its samples fits sixteen bits: the engine is never given a
    short, long or out-of-range frame, and unpacking never fails.  The
    event returns [True], unless the converter refuses the chunk: then
    the event ends in the converter's exception and no frame is passed
    at all. *)
Theorem frames_fit_the_engine (event : Event.t) (env : Env) (d : Detector) :
  Event.type event = "audio-chunk" ->
  armed (self env) d ->
  exists env' frames,
    handle_event event env =
      (env',
       match converter_convert (converter (self env)) (AudioChunk.from_event event) with
       | inl e => Raise e
       | inr _ => Ret true
       end) /\
    processed env' = processed env ++ frames /\
    Forall (fun frame => length frame = frame_length (porcupine d) /\
                         Forall int16 frame) frames /\
    (forall e,
       converter_convert (converter (self env)) (AudioChunk.from_event event) = inl e ->
       frames = []).
Proof.
  intros Ht Harmed. rewrite (handle_event_audio_chunk _ _ d Ht Harmed).
  destruct (converter_convert _ _) as [e|[conv' chunk]].
  { exists env, []. split_and!; [done|by rewrite app_nil_r|constructor|done]. }
  destruct (chunk_step_spec conv' chunk d env Harmed)
    as (d' & _ & _ & _ & _ & _ & _ & _ & Hp & _).
  eexists _, _. split; [done|]. split; [exact Hp|]. split; [|done].
  set (n := bytes_per_chunk (self env)).
  set (b := audio_buffer (self env) ++ _).
  assert (n = frame_length (porcupine d) * 2) as Hn by apply Harmed.
  assert (0 < n) as Hpos by (destruct Harmed as (_ & _ & _ & ?); lia).
  apply Forall_fmap.
  eapply Forall_impl; [apply (frames_of_full _ n b), div_bounds; lia|].
  intros f Hf. cbn in *. split.
  - apply length_samples. lia.
  - by eapply samples_int16.
Qed.

(** ** Arming on the first audio chunk *)

(** X11.  An unbound handler arms itself on an audio chunk exactly as a Detect
    event with a name would have armed it: handling the chunk alone is
    handling such a Detect and then the chunk, outcome for outcome. *)
Theorem first_chunk_arms_like_detect (detect chunk : Event.t) (env : Env) :
  Event.type detect = "detect" ->
  truthy (Event.names detect) = true ->
  Event.type chunk = "audio-chunk" ->
  detector (self env) = None ->
  handle_event chunk env = bind (handle_event detect) (fun _ => handle_event chunk) env.
Proof.
  intros Hd Hnames Hc Hnone. unfold bind.
  rewrite handle_event_audio_chunk_unarmed, handle_event_detect, Hnames by done.
  by destruct (_load_keyword env) as [env1 [[]| |]].
Qed.

(** ** Failures *)

(** X12.  On a connection, an event that ends in an exception has
    written nothing, scored nothing and left the buffer and the shared
    state as they were.  Either the exception is the one the acquisition
    of a detector ended in, raised by [get_porcupine] itself or by the
    engine's constructor, and then nothing at all has changed; or the
    event is an audio chunk the converter refused, the exception is the
    converter's, and the one change there can be is that a handler
    without a detector has acquired one before the conversion was tried
    and keeps it. *)
Theorem failed_event_leaves_no_trace
    (info : list WakeModel) (sens : Q) (id : string) (st : State) (n : nat)
    (env env' : Env) (event : Event.t) (e : exn) :
  frame_length_positive ->
  reachable (mkEnv (Handler_init info sens id) st n [] []) env ->
  handle_event event env = (env', Raise e) ->
  written env' = written env /\
  processed env' = processed env /\
  audio_buffer (self env') = audio_buffer (self env) /\
  shared env' = shared env /\
  ((env' = env /\
    (porcupine_args (shared env) = inl e \/
     exists lib paths,
       porcupine_args (shared env) = inr (lib, paths) /\ pv_create lib paths = inl e)) \/
   (Event.type event = "audio-chunk" /\
    converter_convert (converter (self env)) (AudioChunk.from_event event) = inl e /\
    (env' = env \/
     (detector (self env) = None /\ _load_keyword env = (env', Ret tt))))).
Proof.
  intros Hpos Hreach.
  assert (session_inv env) as Hinv.
  { eapply reachable_session_inv; [exact Hpos| |exact Hreach]. by split. }
  assert (forall env1 : Env,
            _load_keyword env = (env1, Raise e) ->
            env1 = env /\
            (porcupine_args (shared env) = inl e \/
             exists lib paths,
               porcupine_args (shared env) = inr (lib, paths) /\
               pv_create lib paths = inl e)) as Hload.
  { intros env1. rewrite _load_keyword_eq.
    destruct (porcupine_args (shared env)) as [e1|[lib paths]] eqn:Hargs.
    - intros [= <- <-]. split; [done|]. by left.
    - destruct (pv_create lib paths) as [e1|[fl st1]] eqn:Hc; [|done].
      intros [= <- <-]. split; [done|]. right. by exists lib, paths. }
  destruct (decide (Event.type event = "describe")) as [Ht|N1].
  { by rewrite handle_event_describe. }
  destruct (decide (Event.type event = "detect")) as [Ht|N2].
  { rewrite handle_event_detect by done. destruct (truthy _); [|done].
    destruct (_load_keyword env) as [env1 [[]|e1|]] eqn:Hl; [done| |done].
    intros [= <- <-]. destruct (Hload _ eq_refl) as [-> Hwhy].
    split_and!; [done..|]. left. by split. }
  destruct (decide (Event.type event = "audio-start")) as [Ht|N3].
  { by rewrite handle_event_audio_start. }
  destruct (decide (Event.type event = "audio-chunk")) as [Ht|N4].
  { destruct (detector (self env)) as [d|] eqn:Hd.
    - assert (armed (self env) d) as Harmed.
      { unfold session_inv in Hinv. rewrite Hd in Hinv. apply Hinv. }
      rewrite (handle_event_audio_chunk _ _ d) by done.
      destruct (converter_convert _ _) as [e1|[conv' chunk]] eqn:Hconv; [|done].
      intros [= <- <-]. split_and!; [done..|]. right. split_and!; [done..|]. by left.
    - rewrite handle_event_audio_chunk_unarmed by done.
      destruct (_load_keyword env) as [env1 [[]|e1|]] eqn:Hl.
      + intros Hrun. clear Hload Hreach. pose proof Hl as Hl'.
        rewrite _load_keyword_eq in Hl.
        destruct (porcupine_args (shared env)) as [e1|[lib paths]] eqn:Hargs; [done|].
        destruct (pv_create lib paths) as [e1|[fl st1]] eqn:Hc; [done|].
        injection Hl as <-.
        pose proof (session_inv_bound _ _ _ _ _ Hpos Hinv Hargs Hc) as Hinv1.
        unfold session_inv in Hinv1. cbn in Hinv1. destruct Hinv1 as (Harmed & _).
        match type of Hrun with
        | handle_event _ ?E = _ =>
            rewrite (handle_event_audio_chunk event E _ Ht Harmed) in Hrun
        end.
        cbn [self bound_to converter] in Hrun.
        destruct (converter_convert _ _) as [e1|[conv' chunk]] eqn:Hconv; [|done].
        injection Hrun as <- <-. split_and!; [done..|]. right.
        split_and!; [done..|]. right. by split.
      + intros [= <- <-]. destruct (Hload _ eq_refl) as [-> Hwhy].
        split_and!; [done..|]. left. by split.
      + done. }
  destruct (decide (Event.type event = "audio-stop")) as [Ht|N5].
  { by rewrite handle_event_audio_stop. }
  by rewrite handle_event_other by (by apply bool_decide_eq_false_2).
Qed.

(** ** AudioStart and the buffer *)

(** X13.  AudioStart does not empty the buffer.  Bytes of an unfinished frame
    that were buffered before it are the beginning of the first frame
    scored after it: an AudioStart followed by audio chunks scores the
    frames of the old buffer followed by the new payloads.  The run ends
    as the conversions do: normally, or with the exception of the first
    chunk the converter refuses, the payloads before it being the new
    payloads. *)
Theorem audio_start_keeps_the_buffer (start : Event.t) (chunks : list Event.t)
    (env : Env) (d : Detector) :
  Event.type start = "audio-start" ->
  Forall (fun event => Event.type event = "audio-chunk") chunks ->
  armed (self env) d ->
  length (audio_buffer (self env)) < bytes_per_chunk (self env) ->
  let n := bytes_per_chunk (self env) in
  let stream := audio_buffer (self env) ++ mjoin (normalized (converter (self env)) chunks) in
  let k := length stream / n in
  exists env',
    run_loop (start :: chunks) env
      = (env', conversion_outcome (converter (self env)) chunks) /\
    detected (self env') = false /\
    processed env' = processed env ++ (samples <$> frames_of k n stream) /\
    audio_buffer (self env') = drop (k * n) stream.
Proof.
  intros Hs Hall Harmed Hlen. cbv zeta.
  cbn [run_loop]. unfold bind. rewrite handle_event_audio_start by done.
  set (env0 := mkEnv _ _ _ _ _).
  assert (armed (self env0) d) as Harmed0 by (destruct Harmed as (?&?&?&?); by split_and!).
  destruct (run_loop_chunks chunks env0 d Harmed0 Hall Hlen)
    as (env' & d' & Hrun & _ & _ & _ & Hdet & Hb & Hp & _).
  exists env'. by split_and!.
Qed.

(** ** The sensitivity *)

Lemma sens_blind_ret {A} (g : (Q -> Q) -> A -> A) (a : A) :
  (forall f, g f a = a) -> sens_blind g (ret a).
Proof. intros Hg f env. cbn. by rewrite Hg. Qed.

Lemma sens_blind_raise {A} (g : (Q -> Q) -> A -> A) (e : exn) :
  sens_blind g (@raise _ _ A e).
Proof. done. Qed.

Lemma sens_blind_hang {A} (g : (Q -> Q) -> A -> A) : sens_blind g (@hang _ _ A).
Proof. done. Qed.

Lemma sens_blind_get_self : sens_blind resens_handler get_self.
Proof. done. Qed.

Lemma sens_blind_write_event (e : OutEvent) : sens_blind (fun _ x => x) (write_event e).
Proof. done. Qed.

Lemma sens_blind_modify_self (F : Porcupine1EventHandler -> Porcupine1EventHandler) :
  (forall f h, F (resens_handler f h) = resens_handler f (F h)) ->
  sens_blind (fun _ x => x) (modify_self F).
Proof. intros HF f env. unfold modify_self. mred. cbn. unfold resens. cbn. by rewrite HF. Qed.

Lemma sens_blind_bind {A B} (g : (Q -> Q) -> A -> A) (g' : (Q -> Q) -> B -> B)
    (m : M A) (k : A -> M B) :
  sens_blind g m ->
  (forall a, sens_blind g' (k a)) ->
  (forall f a env, k (g f a) env = k a env) ->
  sens_blind g' (bind m k).
Proof.
  intros Hm Hk Hg f env. unfold bind. rewrite Hm.
  destruct (m env) as [env1 [a|e|]]; cbn [fst snd res_map]; [|done..].
  rewrite Hg. apply Hk.
Qed.

Lemma sens_blind__load_keyword : sens_blind (fun _ x => x) _load_keyword.
Proof.
  intros f env. rewrite !_load_keyword_eq.
  change (shared (resens f env)) with (shared env).
  destruct (porcupine_args (shared env)) as [e|[lib paths]]; [done|].
  destruct (pv_create lib paths) as [e|[fl st]]; done.
Qed.

Lemma sens_blind_detector_process (frame : list Z) :
  sens_blind (fun _ x => x) (detector_process frame).
Proof.
  intros f env. unfold detector_process. cbn [self resens resens_handler detector].
  destruct (detector (self env)) as [d|]; [|done]. cbn.
  by destruct (pv_process _ _).
Qed.

Ltac sens_blind_step :=
  first
    [ apply sens_blind_ret; done | apply sens_blind_raise | apply sens_blind_hang
    | apply sens_blind__load_keyword | apply sens_blind_detector_process
    | apply sens_blind_write_event | apply sens_blind_modify_self; done
    | eapply sens_blind_bind; [apply sens_blind_get_self| intros ? |]
    | eapply (sens_blind_bind (fun _ x => x)); [| intros ? | done] ].

Lemma sens_blind_drain_body (chunk : AudioChunk.t) :
  sens_blind (fun _ x => x) (drain_body chunk).
Proof.
  unfold drain_body, mbind, M_bind. sens_blind_step; [|done].
  destruct (struct_unpack_from _ _); [|sens_blind_step].
  sens_blind_step; [sens_blind_step|]. sens_blind_step.
  - destruct (0 <=? _)%Z; sens_blind_step.
  - sens_blind_step.
Qed.

Lemma sens_blind_drain (fuel : nat) (chunk : AudioChunk.t) :
  sens_blind (fun _ x => x) (drain fuel chunk).
Proof.
  induction fuel as [|fuel IH]; cbn [drain]; unfold mbind, M_bind.
  - sens_blind_step; [|done]. destruct (decide _); sens_blind_step.
  - sens_blind_step; [|done]. destruct (decide _); [|sens_blind_step].
    sens_blind_step; [apply sens_blind_drain_body|done].
Qed.

Lemma sens_blind_handle_event (event : Event.t) :
  sens_blind (fun _ x => x) (handle_event event).
Proof.
  unfold handle_event, mbind, M_bind.
  repeat match goal with
         | |- sens_blind _ (if ?b then _ else _) => destruct b
         end.
  - sens_blind_step; [|done]. sens_blind_step; sens_blind_step.
  - sens_blind_step; [|sens_blind_step]. destruct (truthy _); sens_blind_step.
  - sens_blind_step; [sens_blind_step|sens_blind_step].
  - sens_blind_step.
    + sens_blind_step.
      { destruct (detector _); sens_blind_step. }
      sens_blind_step.
      * sens_blind_step.
        { destruct (detector _); sens_blind_step. }
        destruct (converter_convert _ _) as [e|[conv' chunk]]; [sens_blind_step|].
        sens_blind_step; [sens_blind_step|]. sens_blind_step; [sens_blind_step|].
        sens_blind_step; [|done].
        sens_blind_step; [apply sens_blind_drain|sens_blind_step].
      * intros f h env. cbn. by destruct (detector h).
    + intros f h env. cbn. by destruct (detector h).
  - sens_blind_step; [|done]. sens_blind_step; [|sens_blind_step].
    destruct (negb _); sens_blind_step.
  - sens_blind_step.
Qed.

Lemma sens_blind_run_loop (events : list Event.t) :
  sens_blind (fun _ x => x) (run_loop events).
Proof.
  induction events as [|event events IH]; cbn [run_loop].
  - by apply sens_blind_ret.
  - eapply (sens_blind_bind (fun _ x => x)); [apply sens_blind_handle_event| |done].
    intros [|]; [done|by apply sens_blind_ret].
Qed.

(** X14.  The sensitivity given on the command line is stored in the handler
    and in its detector and goes nowhere else.  Two connections that
    differ in nothing but the sensitivity go through any events alike:
    the same frames are scored, the same events written, the same number
    of engines built, with the same outcome, and the same bytes are left
    in the buffer. *)
Theorem sensitivity_changes_nothing (events : list Event.t) (info : list WakeModel)
    (s1 s2 : Q) (id : string) (st : State) (n : nat) :
  let r1 := run_loop events (mkEnv (Handler_init info s1 id) st n [] []) in
  let r2 := run_loop events (mkEnv (Handler_init info s2 id) st n [] []) in
  r1.2 = r2.2 /\
  written r1.1 = written r2.1 /\
  processed r1.1 = processed r2.1 /\
  instances r1.1 = instances r2.1 /\
  audio_buffer (self r1.1) = audio_buffer (self r2.1) /\
  (porcupine <$> detector (self r1.1)) = (porcupine <$> detector (self r2.1)).
Proof.
  cbv zeta.
  pose proof (sens_blind_run_loop events (fun _ => s2)
                (mkEnv (Handler_init info s1 id) st n [] [])) as H.
  change (resens (fun _ => s2) (mkEnv (Handler_init info s1 id) st n [] []))
    with (mkEnv (Handler_init info s2 id) st n [] []) in H.
  rewrite H. clear H. cbn [fst snd].
  destruct (run_loop events _) as [env1 r]. cbn [fst snd].
  split_and!; try done.
  - by destruct r.
  - cbn. by destruct (detector (self env1)).
Qed.

(** ** Events other than audio chunks *)

(** X15.  Only audio chunk events reach the engine, the buffer or the
    converter: any other event scores no frame, leaves the buffered
    bytes and the converter as they are, and ends (its loop-free
    handling cannot hang).  Unless it is a Detect event it also builds no
    engine and leaves the bound detector alone. *)
Theorem only_audio_chunks_reach_the_engine (event : Event.t) (env env' : Env)
    (r : Res bool) :
  Event.type event <> "audio-chunk" ->
  handle_event event env = (env', r) ->
  processed env' = processed env /\
  audio_buffer (self env') = audio_buffer (self env) /\
  converter (self env') = converter (self env) /\
  r <> Hang /\
  (Event.type event <> "detect" ->
   instances env' = instances env /\ detector (self env') = detector (self env)).
Proof.
  intros Hnc.
  destruct (decide (Event.type event = "describe")) as [Ht|N1].
  { rewrite handle_event_describe by done. intros [= <- <-]. by split_and!. }
  destruct (decide (Event.type event = "detect")) as [Ht|N2].
  { rewrite handle_event_detect, _load_keyword_eq by done.
    destruct (truthy _); [|intros [= <- <-]; by split_and!].
    destruct (porcupine_args (shared env)) as [e|[lib paths]];
      [intros [= <- <-]; by split_and!|].
    destruct (pv_create lib paths) as [e|[fl st]]; intros [= <- <-]; by split_and!. }
  destruct (decide (Event.type event = "audio-start")) as [Ht|N3].
  { rewrite handle_event_audio_start by done. intros [= <- <-]. by split_and!. }
  destruct (decide (Event.type event = "audio-stop")) as [Ht|N5].
  { rewrite handle_event_audio_stop by done. intros [= <- <-]. by split_and!. }
  rewrite handle_event_other by (by apply bool_decide_eq_false_2).
  intros [= <- <-]. by split_and!.
Qed.

End Proofs.

(** * The handler at work *)

Import Scenario.

Lemma toy_frame_length_positive : frame_length_positive.
Proof.
  intros lib paths fl st. cbn. destruct (decide (lib = "")); [done|].
  intros [= <- _]. lia.
Qed.

Lemma armed_env_armed : armed (self armed_env) detector0.
Proof. repeat split. cbn. lia. Qed.

Lemma frame_alignment_witness :
  exists env',
    run_loop [audio_chunk [x01; x00; x00]; audio_chunk [x00]] armed_env = (env', Ret tt) /\
    processed env' = [[1; 0]%Z] /\
    audio_buffer (self env') = [].
Proof.
  destruct (frame_alignment [audio_chunk [x01; x00; x00]; audio_chunk [x00]]
              armed_env detector0 1 0)
    as (env' & frames & Hrun & Hp & Hlen & Hi & _ & _ & _ & Hz).
  - exact armed_env_armed.
  - cbn. lia.
  - repeat constructor.
  - reflexivity.
  - cbn. lia.
  - exists env'. split; [exact Hrun|]. split; [|apply Hz; reflexivity].
    rewrite Hp. destruct frames as [|f [|]]; try discriminate.
    specialize (Hi 0 (Nat.lt_0_succ 0)). injection Hi as ->. reflexivity.
Defined.

Lemma unexpected_event_changes_nothing_witness :
  handle_event ping armed_env = (armed_env, Ret true).
Proof.
  destruct (unexpected_event_changes_nothing ping armed_env)
    as (env' & Hrun & _ & _ & _ & _ & _ & Heq).
  - reflexivity.
  - reflexivity.
  - reflexivity.
  - reflexivity.
  - reflexivity.
  - rewrite Hrun. f_equal. exact Heq.
Defined.

Lemma buffer_below_one_frame_witness :
  bytes_per_chunk (self (handle_event seven_bytes armed_env).1) = 4 /\
  length (audio_buffer (self (handle_event seven_bytes armed_env).1)) = 3.
Proof.
  destruct (buffer_below_one_frame [] 0.5%Q "1" registry 0 armed_env
              (handle_event seven_bytes armed_env).1 seven_bytes
              (handle_event seven_bytes armed_env).2 (detector_seen 1))
    as (Hn & _ & Hlt & _).
  - exact toy_frame_length_positive.
  - apply (reach_step _ (fresh registry) (detect (Some ["alexa"]))).
    + apply reach_init.
    + reflexivity.
  - reflexivity.
  - reflexivity.
  - split; [exact Hn|]. rewrite Hn in Hlt. reflexivity.
Defined.

Lemma disconnect_drops_the_detector_witness :
  detector (self after_disconnect) = None /\
  detector_cache (shared after_disconnect) = ∅ /\
  forall env2 d2,
    get_porcupine 0.5%Q second_connection = (env2, Ret d2) ->
    handle (porcupine d2) <> handle (porcupine detector0).
Proof.
  destruct (disconnect_drops_the_detector armed_env detector0)
    as (env1 & Hrun & Hd & Hs & Hc & Hi & Hnext).
  - reflexivity.
  - cbn. lia.
  - unfold second_connection, after_disconnect. rewrite Hrun. cbn [fst].
    split; [exact Hd|]. split; [rewrite Hc; reflexivity|].
    intros env2 d2 Hacq. apply Hnext in Hacq as (_ & Hne & _). exact Hne.
Defined.

Lemma detect_arms_for_all_en_keywords_witness :
  handle_event (detect None) (fresh registry) = (fresh registry, Ret true) /\
  handle_event (detect (Some ["computer"])) (fresh registry) = (armed_env, Ret true).
Proof.
  destruct (detect_arms_for_all_en_keywords (detect None) (fresh registry) eq_refl)
    as (Hnone & _ & _).
  destruct (detect_arms_for_all_en_keywords (detect (Some ["computer"])) (fresh registry)
              eq_refl) as (_ & Hsome & _).
  split; [apply Hnone; reflexivity|]. rewrite Hsome by reflexivity. reflexivity.
Defined.

Lemma empty_registry_raises_IndexError_witness :
  get_porcupine 0.5%Q (fresh empty_registry) = (fresh empty_registry, Raise IndexError).
Proof.
  apply (empty_registry_raises_IndexError 0.5%Q (fresh empty_registry)). reflexivity.
Defined.

Lemma audio_stop_ends_the_connection_witness :
  run_loop [audio_stop; audio_start; audio_chunk says_alexa; audio_stop] armed_env =
  (mkEnv (self armed_env) registry 1 [NotDetected] [], Ret tt).
Proof.
  apply (audio_stop_ends_the_connection audio_stop
           [audio_start; audio_chunk says_alexa; audio_stop] armed_env).
  reflexivity.
Defined.

(** ** Where the code and the specification part *)

(** C2, at the failing input.  A bracket in which the engine fires:
    AudioStart, one chunk holding a frame that scores keyword 0, then
    AudioStop.  The Detection is written, but the detected flag is still
    unset after the chunk, and AudioStop writes NotDetected all the
    same. *)
Theorem not_detected_after_a_detection :
  written (run_loop [audio_start; audio_chunk says_alexa] armed_env).1
    = [Detection "alexa" (Some 7%Z)] /\
  detected (self (run_loop [audio_start; audio_chunk says_alexa] armed_env).1) = false /\
  written (run_loop [audio_start; audio_chunk says_alexa; audio_stop] armed_env).1
    = [Detection "alexa" (Some 7%Z); NotDetected].
Proof. vm_compute. done. Qed.

(** C3, at the failing input.  The registry holds the English keywords
    alexa and computer, so the engine numbers them 0 and 1.  On a frame
    for which the engine returns index 1, the Detection written names
    ["alexa"], not the keyword behind the index. *)
Theorem detection_names_alexa_for_computer :
  processed (handle_event (audio_chunk says_computer) armed_env).1 = [[2; 0]%Z] /\
  (pv_process (internal (porcupine detector0)) [2; 0]%Z).2 = 1%Z /\
  keyword_of_index registry 1 = Some "computer" /\
  written (handle_event (audio_chunk says_computer) armed_env).1
    = [Detection "alexa" (Some 7%Z)].
Proof. vm_compute. done. Qed.

(** C1 as stated fails.  Three bytes arrive before the bracket and are
    buffered unscored.  The bracket then brings one chunk of exactly one
    frame: there is one call to the engine, but on the three old bytes
    and the first byte of the chunk, not on the four bytes of the chunk;
    the other three bytes of the chunk are left in the buffer, scored by
    nothing. *)
Lemma frame_alignment_counterexample :
  processed (run_loop stale_bytes (fresh registry)).1 = [] /\
  bytes_per_chunk (self (run_loop stale_bytes (fresh registry)).1) = 4 /\
  mjoin (normalized (converter new_handler) [audio_chunk [x0a; x0b; x0c; x0d]])
    = [x0a; x0b; x0c; x0d] /\
  processed (run_loop stale_then_bracket (fresh registry)).1
    = [samples [x01; x02; x03; x0a]] /\
  samples [x01; x02; x03; x0a] <> samples [x0a; x0b; x0c; x0d] /\
  audio_buffer (self (run_loop stale_then_bracket (fresh registry)).1)
    = [x0b; x0c; x0d].
Proof. vm_compute. split_and!; done. Qed.

(** C4 as stated fails.  After an AudioStop the handler has returned
    [False]; a second bracket sent on the same connection is not
    handled, although the same bracket on a new connection is scored. *)
Lemma audio_stop_keeps_connection_counterexample :
  (handle_event audio_stop armed_env).2 = Ret false /\
  processed (run_loop (audio_stop :: bracket) armed_env).1 = [] /\
  written (run_loop (audio_stop :: bracket) armed_env).1 = [NotDetected] /\
  processed (run_loop bracket armed_env).1 = [[1; 0]%Z].
Proof. vm_compute. done. Qed.

(** C5 as stated fails.  After [disconnect] the cache is still empty, so
    the detector was not released into it; the next acquisition with the
    same sensitivity over the same registry builds a second engine
    instead of returning the first. *)
Lemma pool_round_trip_counterexample :
  detector_cache (shared after_disconnect) = ∅ /\
  (exists d2,
     (get_porcupine (sensitivity detector0) second_connection).2 = Ret d2 /\
     d2 <> detector0 /\ handle (porcupine d2) = 1) /\
  instances (get_porcupine (sensitivity detector0) second_connection).1 = 2.
Proof.
  split; [reflexivity|]. split; [|reflexivity].
  eexists. split; [reflexivity|]. split; [|reflexivity]. discriminate.
Qed.

(** C6 as stated fails.  A Detect naming a keyword the registry does not
    hold arms the handler without any error, and the engine is built for
    both English keywords; so does a Detect naming only the second
    keyword; and a Detect without names leaves the handler unarmed
    rather than arming it for the default keyword. *)
Lemma detect_by_name_counterexample :
  dict_get en_keywords_2 "jarvis" = None /\
  handle_event (detect (Some ["jarvis"])) (fresh registry) = (armed_env, Ret true) /\
  handle_event (detect (Some ["computer"; "alexa"])) (fresh registry) = (armed_env, Ret true) /\
  internal (porcupine detector0) = (2, 0) /\
  handle_event (detect None) (fresh registry) = (fresh registry, Ret true) /\
  handle_event (detect (Some [])) (fresh registry) = (fresh registry, Ret true) /\
  detector (self (fresh registry)) = None.
Proof. vm_compute. done. Qed.

(** The empty registry seen through the handler: a Detect with a name,
    and equally a first audio chunk, end in [IndexError]; the
    [ValueError] the code reserves for having no keywords is raised only
    when the table is [None]. *)
Lemma empty_registry_through_the_handler :
  handle_event (detect (Some ["alexa"])) (fresh empty_registry)
    = (fresh empty_registry, Raise IndexError) /\
  handle_event (audio_chunk silence) (fresh empty_registry)
    = (fresh empty_registry, Raise IndexError) /\
  get_porcupine 0.5%Q (fresh (State_init libs None))
    = (fresh (State_init libs None), Raise (ValueError "No keywords")).
Proof. vm_compute. done. Qed.

(** ** The start-up and the further properties at work *)

Lemma load_keywords_entry_witness :
  name (mkKeyword "en" "alexa" "data/resources/en/old/alexa_linux.ppn") = "alexa" /\
  str_split "_" "linux" = ["linux"].
Proof.
  destruct (load_keywords_entry "linux" Files.ppn_files "alexa"
              (mkKeyword "en" "alexa" "data/resources/en/old/alexa_linux.ppn"))
    as (Hname & Hsys & _).
  - vm_compute. left.
  - split; [exact Hname|exact Hsys].
Defined.

Lemma describe_advertises_every_keyword_witness :
  exists models,
    handle_event describe
      (mkEnv (main_handler "linux" Files.ppn_files 0.5%Q "1") registry 0 [] [])
    = (mkEnv (main_handler "linux" Files.ppn_files 0.5%Q "1") registry 0
         [Info models] [], Ret true) /\
    wm_name <$> models = ["alexa"; "bonjour"; "hey_google"].
Proof.
  destruct (describe_advertises_every_keyword "linux" Files.ppn_files 0.5%Q "1"
              registry 0 [] [] describe eq_refl)
    as (models & Hrun & Hnames & _).
  exists models. split; [exact Hrun|]. rewrite Hnames. reflexivity.
Defined.

Lemma describe_repeated_witness :
  run_loop [describe; describe] armed_env =
  (mkEnv (self armed_env) registry 1 [Info []; Info []] [], Ret tt).
Proof.
  rewrite (describe_repeated [describe; describe] armed_env).
  - reflexivity.
  - repeat constructor.
Defined.

Lemma audio_stop_always_writes_not_detected_witness :
  handle_event audio_stop (handle_event (audio_chunk says_alexa) armed_env).1 =
  (mkEnv (self (handle_event (audio_chunk says_alexa) armed_env).1) registry 1
     [Detection "alexa" (Some 7%Z); NotDetected] [[1; 0]%Z], Ret false).
Proof.
  destruct (audio_stop_always_writes_not_detected [] 0.5%Q "1" registry 0
              (handle_event (audio_chunk says_alexa) armed_env).1 audio_stop)
    as (_ & Hrun).
  - apply (reach_step _ armed_env (audio_chunk says_alexa)); [|reflexivity].
    apply (reach_step _ (fresh registry) (detect (Some ["alexa"]))); [|reflexivity].
    apply reach_init.
  - reflexivity.
  - rewrite Hrun. reflexivity.
Defined.

Lemma audio_chunk_scores_and_writes_witness :
  exists env',
    handle_event (audio_chunk (says_computer ++ silence)) armed_env = (env', Ret true) /\
    processed env' = [[2; 0]%Z; [0; 0]%Z] /\
    written env' = [Detection "alexa" (Some 7%Z)].
Proof.
  destruct (audio_chunk_scores_and_writes (audio_chunk (says_computer ++ silence))
              armed_env detector0 eq_refl armed_env_armed)
    as (env' & Hrun & Hp & Hw & _).
  exists env'. split; [exact Hrun|]. split; [rewrite Hp|rewrite Hw]; reflexivity.
Defined.

Lemma frames_fit_the_engine_witness :
  exists env' frames,
    handle_event (audio_chunk (says_computer ++ silence)) armed_env = (env', Ret true) /\
    processed env' = frames /\
    Forall (fun frame => length frame = 2 /\ Forall int16 frame) frames.
Proof.
  destruct (frames_fit_the_engine (audio_chunk (says_computer ++ silence))
              armed_env detector0 eq_refl armed_env_armed)
    as (env' & frames & Hrun & Hp & Hall & _).
  exists env', frames. split; [exact Hrun|]. split; [exact Hp|exact Hall].
Defined.

Lemma first_chunk_arms_like_detect_witness :
  handle_event (audio_chunk says_alexa) (fresh registry) =
  handle_event (audio_chunk says_alexa) armed_env.
Proof.
  rewrite (first_chunk_arms_like_detect (detect (Some ["jarvis"]))
             (audio_chunk says_alexa) (fresh registry));
    reflexivity.
Defined.

Lemma failed_event_leaves_no_trace_witness :
  handle_event wide_chunk (fresh registry)
    = (armed_env, Raise (AudioopError "Size should be 1, 2, 3 or 4")) /\
  written armed_env = written (fresh registry) /\
  processed armed_env = processed (fresh registry) /\
  audio_buffer (self armed_env) = audio_buffer (self (fresh registry)).
Proof.
  destruct (failed_event_leaves_no_trace [] 0.5%Q "1" registry 0
              (fresh registry) armed_env wide_chunk
              (AudioopError "Size should be 1, 2, 3 or 4"))
    as (Hw & Hp & Hb & _).
  - exact toy_frame_length_positive.
  - apply reach_init.
  - reflexivity.
  - split; [reflexivity|]. split; [exact Hw|]. split; [exact Hp|exact Hb].
Defined.

Lemma audio_start_keeps_the_buffer_witness :
  exists env',
    run_loop [audio_start; audio_chunk [x00]] armed_with_leftover = (env', Ret tt) /\
    processed env' = [[1; 0]%Z] /\
    audio_buffer (self env') = [].
Proof.
  destruct (audio_start_keeps_the_buffer audio_start [audio_chunk [x00]]
              armed_with_leftover detector0)
    as (env' & Hrun & _ & Hp & Hb).
  - reflexivity.
  - repeat constructor.
  - repeat split. cbn. lia.
  - cbn. lia.
  - exists env'. split; [exact Hrun|]. split; [rewrite Hp|rewrite Hb]; reflexivity.
Defined.

Lemma only_audio_chunks_reach_the_engine_witness :
  processed (handle_event (detect (Some ["alexa"])) armed_with_leftover).1 = [] /\
  audio_buffer (self (handle_event (detect (Some ["alexa"])) armed_with_leftover).1)
    = [x01; x00; x00].
Proof.
  destruct (only_audio_chunks_reach_the_engine (detect (Some ["alexa"]))
              armed_with_leftover
              (handle_event (detect (Some ["alexa"])) armed_with_leftover).1
              (handle_event (detect (Some ["alexa"])) armed_with_leftover).2)
    as (Hp & Hb & _).
  - discriminate.
  - reflexivity.
  - split; [exact Hp|exact Hb].
Defined.
